(** * blackjack-ng client: hand evaluation, audio cues, connection
      manager, state synchronizer and turn clock of [src/App.tsx]

    The development follows the layout of the source file: the card
    types and [calculateValue], the [useSounds] hook, the [useWs] hook,
    the [TurnTimer] component and the derivations made by [App].  Each
    hook is embedded as a state record together with the handlers the
    event loop may invoke on it; handlers that can raise return a
    [completion]. *)

From stdpp Require Import base numbers list strings pretty gmap.
From Stdlib Require Import ZArith Lia QArith.

Local Open Scope Z_scope.
#[local] Set Warnings "-register-all".

(** ** Exceptions

    A handler either returns normally or throws; [try_catch] is the
    [try { .. } catch (e) { .. }] statement. *)

Inductive jserror := SyntaxError | TypeError | InvalidStateError | NotSupportedError.

Inductive completion (A : Type) :=
| Ok (a : A)
| Throw (e : jserror).
Arguments Ok {A} a.
Arguments Throw {A} e.

Definition bind {A B} (r : completion A) (k : A → completion B) : completion B :=
  match r with
  | Ok a => k a
  | Throw e => Throw e
  end.

Notation "x ←! r ; k" := (bind r (λ x, k))
  (at level 20, r at level 100, k at level 200, right associativity,
   format "x  ←!  r ;  '/' k").

Definition try_catch {A} (body : completion A) (handler : jserror → completion A) : completion A :=
  match body with
  | Ok a => Ok a
  | Throw e => handler e
  end.

(** ** Cards and [calculateValue] *)

Module Cards.

Inductive Suit := Spades | Hearts | Diamonds | Clubs.

Inductive Rank := RA | R2 | R3 | R4 | R5 | R6 | R7 | R8 | R9 | R10 | RJ | RQ | RK.

(** The string a [Rank] is at run time. *)
Definition rank_str (r : Rank) : string :=
  match r with
  | RA => "A" | R2 => "2" | R3 => "3" | R4 => "4" | R5 => "5" | R6 => "6"
  | R7 => "7" | R8 => "8" | R9 => "9" | R10 => "10"
  | RJ => "J" | RQ => "Q" | RK => "K"
  end.

#[global] Instance Rank_eq_dec : EqDecision Rank.
Proof. solve_decision. Defined.

Record Card := { id : string; suit : Suit; rank : Rank }.

Definition digit_of (a : Ascii.ascii) : option Z :=
  let n := Z.of_nat (Ascii.nat_of_ascii a) in
  if (48 <=? n) && (n <=? 57) then Some (n - 48) else None.

Fixpoint parse_digits (s : string) (acc : option Z) : option Z :=
  match s with
  | EmptyString => acc
  | String a s' =>
      match digit_of a with
      | Some d => parse_digits s' (Some (default 0 acc * 10 + d))
      | None => acc
      end
  end.

(** [parseInt] on a string without sign or leading blanks: the longest
    prefix of decimal digits, [None] standing for [NaN]. *)
Definition parseInt (s : string) : option Z := parse_digits s None.

(** The body of the [for (const c of cards)] loop on the pair
    [(sum, aces)].  A rank of type [Rank] that is neither an ace nor a
    face card is a numeral, so [parseInt] never yields [NaN] here
    ([parseInt_rank] below). *)
Definition add_card (acc : Z * nat) (c : Card) : Z * nat :=
  let '(sum, aces) := acc in
  if decide (rank_str (rank c) = "A") then (sum + 11, S aces)
  else if bool_decide (rank_str (rank c) ∈ ["J"; "Q"; "K"]) then (sum + 10, aces)
  else (sum + default 0 (parseInt (rank_str (rank c))), aces).

(** [while (sum > 21 && aces > 0) { sum -= 10; aces--; }], returning
    both variables as the loop leaves them. *)
Fixpoint downgrade (aces : nat) (sum : Z) : Z * nat :=
  match aces with
  | O => (sum, O)
  | S aces' => if 21 <? sum then downgrade aces' (sum - 10) else (sum, aces)
  end.

(** [sum] and [aces] at the [return]. *)
Definition final_vars (cards : list Card) : Z * nat :=
  let '(sum, aces) := foldl add_card (0, O) cards in
  downgrade aces sum.

Definition calculateValue (cards : list Card) : Z := (final_vars cards).1.

(** Aces of the hand that the returned total still counts as 11. *)
Definition soft_aces (cards : list Card) : nat := (final_vars cards).2.

Definition count_aces (cards : list Card) : nat := length (filter (λ c, rank c = RA) cards).

(** The point values in the words of the specification: number cards
    at face value, J/Q/K as 10, an ace as 11 (soft) or 1 (hard). *)
Definition spec_soft_points (r : Rank) : Z :=
  match r with
  | RA => 11
  | R2 => 2 | R3 => 3 | R4 => 4 | R5 => 5 | R6 => 6 | R7 => 7 | R8 => 8 | R9 => 9
  | R10 | RJ | RQ | RK => 10
  end.

Definition spec_hard_points (r : Rank) : Z :=
  match r with
  | RA => 1
  | _ => spec_soft_points r
  end.

Definition total_with (f : Rank → Z) (cards : list Card) : Z :=
  foldr (λ c acc, f (rank c) + acc) 0 cards.

Definition card (r : Rank) : Card := {| id := rank_str r; suit := Spades; rank := r |}.

End Cards.

(** ** The [useSounds] hook

    The audio backend is the Web Audio API.  What the hook does to it is
    recorded as the sequence of calls it makes; a time argument is kept
    as its offset from [ctx.currentTime], in seconds.  Work handed to
    [setTimeout] is kept as data until the event loop runs it. *)

Module Sounds.

Inductive AudioNode := Osc (i : nat) | Gain (i : nat) | Filter (i : nat) | Destination.

Inductive AudioParam := Frequency (n : AudioNode) | GainValue (n : AudioNode).

Inductive AudioCall :=
| NewAudioContext
| CreateOscillator
| CreateGain
| CreateBiquadFilter
| Connect (src dst : AudioNode)
| SetType (n : AudioNode) (ty : string)
| SetValue (p : AudioParam) (v : Q)
| SetValueAtTime (p : AudioParam) (v : Q) (after : Q)
| ExponentialRampToValueAtTime (p : AudioParam) (v : Q) (after : Q)
| Start (n : AudioNode) (after : option Q)
| Stop (n : AudioNode) (after : Q).

(** The callbacks the hook passes to [setTimeout]: the body of
    [playBeep], and one pass of the loop of [playShuffle]. *)
Inductive Deferred :=
| BeepBody (freq duration : Q)
| ShuffleBody (i : nat).

Record Backend := {
  available : bool;                  (* does [new AudioContext()] succeed *)
  calls : list AudioCall;            (* calls received, oldest first *)
  timeouts : list (Z * Deferred);    (* pending [setTimeout]s with their delay in ms *)
  console : list string;
}.

Definition action := Backend → Backend * option jserror.

Definition call (c : AudioCall) : action :=
  λ b, ({| available := available b; calls := calls b ++ [c];
           timeouts := timeouts b; console := console b |}, None).

(** [new AudioContext()] throws where the backend is missing. *)
Definition new_AudioContext : action :=
  λ b, if available b then call NewAudioContext b else (b, Some NotSupportedError).

Definition and_then (a1 a2 : action) : action :=
  λ b, match a1 b with
       | (b', None) => a2 b'
       | (b', Some e) => (b', Some e)
       end.

Definition skip : action := λ b, (b, None).

Definition do_all (l : list action) : action := foldr and_then skip l.

Definition setTimeout (d : Deferred) (delay : Z) : action :=
  λ b, ({| available := available b; calls := calls b;
           timeouts := timeouts b ++ [(delay, d)]; console := console b |}, None).

Definition console_log (msg : string) (b : Backend) : Backend :=
  {| available := available b; calls := calls b;
     timeouts := timeouts b; console := console b ++ [msg] |}.

(** [try { body } catch (e) { handler }] *)
Definition try_ (body : action) (handler : Backend → Backend) : Backend → Backend :=
  λ b, match body b with
       | (b', None) => b'
       | (b', Some _) => handler b'
       end.

(** The function given to [setTimeout] by [playBeep]. *)
Definition beep_body (freq duration : Q) : Backend → Backend :=
  try_ (do_all [
      new_AudioContext;
      call CreateOscillator;
      call CreateGain;
      call (Connect (Osc 0) (Gain 0));
      call (Connect (Gain 0) Destination);
      call (SetValue (Frequency (Osc 0)) freq);
      call (SetValue (GainValue (Gain 0)) 0.15%Q);
      call (Start (Osc 0) None);
      call (Stop (Osc 0) duration)])
    (console_log "Audio not supported").

Definition playBeep (muted : bool) (freq duration : Q) (delay : Z) : Backend → Backend :=
  λ b, if muted then b
       else (setTimeout (BeepBody freq duration) delay b).1.

(** [notes.forEach((note, i) => playBeep(note, 0.15, i * 120))] *)
Definition playMelody (muted : bool) (notes : list Q) : Backend → Backend :=
  λ b, foldl (λ b' '(i, note), playBeep muted note 0.15%Q (Z.of_nat i * 120) b')
         b (imap pair notes).

Definition playCardSlide (muted : bool) : Backend → Backend :=
  λ b, if muted then b
       else try_ (do_all [
           new_AudioContext;
           call CreateOscillator;
           call CreateGain;
           call CreateBiquadFilter;
           call (Connect (Osc 0) (Filter 0));
           call (Connect (Filter 0) (Gain 0));
           call (Connect (Gain 0) Destination);
           call (SetType (Filter 0) "lowpass");
           call (SetValue (Frequency (Filter 0)) 2000%Q);
           call (SetValueAtTime (Frequency (Osc 0)) 150%Q 0%Q);
           call (ExponentialRampToValueAtTime (Frequency (Osc 0)) 100%Q 0.15%Q);
           call (SetValueAtTime (GainValue (Gain 0)) 0.2%Q 0%Q);
           call (ExponentialRampToValueAtTime (GainValue (Gain 0)) 0.01%Q 0.15%Q);
           call (Start (Osc 0) None);
           call (Stop (Osc 0) 0.15%Q)])
         (λ b', b') b.

(** One pass of [times.forEach((time, i) => ..)] in [playChipStack]. *)
Definition chip_pass (i : nat) (time : Q) : action :=
  do_all [
    call CreateOscillator;
    call CreateGain;
    call (Connect (Osc i) (Gain i));
    call (Connect (Gain i) Destination);
    call (SetValue (Frequency (Osc i)) (1000 + inject_Z (Z.of_nat i) * 200)%Q);
    call (SetValueAtTime (GainValue (Gain i)) 0.15%Q time);
    call (ExponentialRampToValueAtTime (GainValue (Gain i)) 0.01%Q (time + 0.08)%Q);
    call (Start (Osc i) (Some time));
    call (Stop (Osc i) (time + 0.08)%Q)].

Definition playChipStack (muted : bool) : Backend → Backend :=
  λ b, if muted then b
       else try_ (and_then new_AudioContext
                    (do_all (imap chip_pass [0%Q; 0.05%Q; 0.1%Q])))
         (λ b', b') b.

(** The function given to [setTimeout] by pass [i] of the loop of
    [playShuffle]; [r1] and [r2] are its two draws of [Math.random()].
    It runs outside the [try] of [playShuffle], on the context made
    there. *)
Definition shuffle_body (i : nat) (r1 r2 : Q) : action :=
  do_all [
    call CreateOscillator;
    call CreateGain;
    call CreateBiquadFilter;
    call (Connect (Osc i) (Filter i));
    call (Connect (Filter i) (Gain i));
    call (Connect (Gain i) Destination);
    call (SetType (Filter i) "bandpass");
    call (SetValue (Frequency (Filter i)) (800 + r1 * 400)%Q);
    call (SetValue (Frequency (Osc i)) (200 + r2 * 100)%Q);
    call (SetValueAtTime (GainValue (Gain i)) 0.1%Q 0%Q);
    call (ExponentialRampToValueAtTime (GainValue (Gain i)) 0.01%Q 0.1%Q);
    call (Start (Osc i) None);
    call (Stop (Osc i) 0.1%Q)].

Definition playShuffle (muted : bool) : Backend → Backend :=
  λ b, if muted then b
       else try_ (and_then new_AudioContext
                    (do_all ((λ i, setTimeout (ShuffleBody i) (Z.of_nat i * 80))
                               <$> seq 0%nat 8%nat)))
         (λ b', b') b.

(** The event loop runs the oldest pending timeout; [r1] and [r2] are
    the draws of [Math.random()] of a shuffle pass.  An exception that
    escapes a shuffle pass is reported by the runtime. *)
Definition run_timeout (r1 r2 : Q) (b : Backend) : Backend :=
  match timeouts b with
  | [] => b
  | (_, d) :: rest =>
      let b' := {| available := available b; calls := calls b;
                   timeouts := rest; console := console b |} in
      match d with
      | BeepBody freq duration => beep_body freq duration b'
      | ShuffleBody i => (shuffle_body i r1 r2 b').1
      end
  end.

Definition silent (available : bool) : Backend :=
  {| available := available; calls := []; timeouts := []; console := [] |}.

Record SoundSet := {
  cardDeal : Backend → Backend;
  chipBet : Backend → Backend;
  win : Backend → Backend;
  lose : Backend → Backend;
  blackjack : Backend → Backend;
  tick : Backend → Backend;
  shuffle : Backend → Backend;
}.

(** The [sounds] object of a render in which the state variable
    [muted] has the given value. *)
Definition sounds (muted : bool) : SoundSet := {|
  cardDeal := playCardSlide muted;
  chipBet := playChipStack muted;
  win := playMelody muted [523%Q; 659%Q; 784%Q];
  lose := playBeep muted 150%Q 0.5%Q 0;
  blackjack := playMelody muted [523%Q; 659%Q; 784%Q; 1047%Q; 1319%Q];
  tick := playBeep muted 900%Q 0.05%Q 0;
  shuffle := playShuffle muted;
|}.

End Sounds.

(** ** The [useWs] hook

    The hook owns two refs ([wsRef], [reconnectTimeoutRef]) and three
    state variables ([connected], [state], [reconnecting]).  The
    [WebSocket] objects it creates and the timeouts it registers live in
    the browser; they are kept here as two finite maps, from object
    identity to socket and from timer handle to pending timeout.  A
    socket keeps firing its handlers after [wsRef] has moved on to a
    newer one, so the handlers are indexed by socket, not by [wsRef]. *)

Module Ws.

Inductive json :=
| JNull
| JBool (b : bool)
| JNum (n : Z)
| JStr (s : string)
| JArr (l : list json)
| JObj (fields : list (string * json)).

(** A JavaScript value read off a decoded frame: a JSON value, or
    [undefined] for a property that is not there. *)
Inductive jsval := Undefined | Val (j : json).

Inductive ReadyState := CONNECTING | OPEN | CLOSING | CLOSED.

#[global] Instance ReadyState_eq_dec : EqDecision ReadyState.
Proof. solve_decision. Defined.

Record WebSocket := {
  ws_url : string;
  readyState : ReadyState;
  outbox : list string;          (* data written with [send], oldest first *)
}.

(** A pending [window.setTimeout]: when it is due, and the [url] of the
    render whose [connect] its callback calls. *)
Record Timeout := {
  fires_at : Z;
  reconnect_url : string;
}.

Record Hook := {
  sockets : gmap nat WebSocket;
  next_socket : nat;
  timers : gmap nat Timeout;
  next_timer : nat;                    (* handles are positive integers *)
  clock : Z;                           (* milliseconds *)
  wsRef : option nat;
  reconnectTimeoutRef : option nat;
  connected : bool;
  state : jsval;
  reconnecting : bool;
  console : list string;
}.

Definition set_sockets (v : gmap nat WebSocket) (h : Hook) : Hook :=
  {| sockets := v; next_socket := next_socket h; timers := timers h;
     next_timer := next_timer h; clock := clock h; wsRef := wsRef h;
     reconnectTimeoutRef := reconnectTimeoutRef h; connected := connected h;
     state := state h; reconnecting := reconnecting h; console := console h |}.

Definition set_next_socket (v : nat) (h : Hook) : Hook :=
  {| sockets := sockets h; next_socket := v; timers := timers h;
     next_timer := next_timer h; clock := clock h; wsRef := wsRef h;
     reconnectTimeoutRef := reconnectTimeoutRef h; connected := connected h;
     state := state h; reconnecting := reconnecting h; console := console h |}.

Definition set_timers (v : gmap nat Timeout) (h : Hook) : Hook :=
  {| sockets := sockets h; next_socket := next_socket h; timers := v;
     next_timer := next_timer h; clock := clock h; wsRef := wsRef h;
     reconnectTimeoutRef := reconnectTimeoutRef h; connected := connected h;
     state := state h; reconnecting := reconnecting h; console := console h |}.

Definition set_next_timer (v : nat) (h : Hook) : Hook :=
  {| sockets := sockets h; next_socket := next_socket h; timers := timers h;
     next_timer := v; clock := clock h; wsRef := wsRef h;
     reconnectTimeoutRef := reconnectTimeoutRef h; connected := connected h;
     state := state h; reconnecting := reconnecting h; console := console h |}.

Definition set_clock (v : Z) (h : Hook) : Hook :=
  {| sockets := sockets h; next_socket := next_socket h; timers := timers h;
     next_timer := next_timer h; clock := v; wsRef := wsRef h;
     reconnectTimeoutRef := reconnectTimeoutRef h; connected := connected h;
     state := state h; reconnecting := reconnecting h; console := console h |}.

Definition set_wsRef (v : option nat) (h : Hook) : Hook :=
  {| sockets := sockets h; next_socket := next_socket h; timers := timers h;
     next_timer := next_timer h; clock := clock h; wsRef := v;
     reconnectTimeoutRef := reconnectTimeoutRef h; connected := connected h;
     state := state h; reconnecting := reconnecting h; console := console h |}.

Definition set_reconnectTimeoutRef (v : option nat) (h : Hook) : Hook :=
  {| sockets := sockets h; next_socket := next_socket h; timers := timers h;
     next_timer := next_timer h; clock := clock h; wsRef := wsRef h;
     reconnectTimeoutRef := v; connected := connected h;
     state := state h; reconnecting := reconnecting h; console := console h |}.

Definition setConnected (v : bool) (h : Hook) : Hook :=
  {| sockets := sockets h; next_socket := next_socket h; timers := timers h;
     next_timer := next_timer h; clock := clock h; wsRef := wsRef h;
     reconnectTimeoutRef := reconnectTimeoutRef h; connected := v;
     state := state h; reconnecting := reconnecting h; console := console h |}.

Definition setState (v : jsval) (h : Hook) : Hook :=
  {| sockets := sockets h; next_socket := next_socket h; timers := timers h;
     next_timer := next_timer h; clock := clock h; wsRef := wsRef h;
     reconnectTimeoutRef := reconnectTimeoutRef h; connected := connected h;
     state := v; reconnecting := reconnecting h; console := console h |}.

Definition setReconnecting (v : bool) (h : Hook) : Hook :=
  {| sockets := sockets h; next_socket := next_socket h; timers := timers h;
     next_timer := next_timer h; clock := clock h; wsRef := wsRef h;
     reconnectTimeoutRef := reconnectTimeoutRef h; connected := connected h;
     state := state h; reconnecting := v; console := console h |}.

Definition console_log (msg : string) (h : Hook) : Hook :=
  {| sockets := sockets h; next_socket := next_socket h; timers := timers h;
     next_timer := next_timer h; clock := clock h; wsRef := wsRef h;
     reconnectTimeoutRef := reconnectTimeoutRef h; connected := connected h;
     state := state h; reconnecting := reconnecting h;
     console := console h ++ [msg] |}.

(** The hook before its effect has run: [useRef(null)] twice,
    [useState(false)], [useState(null)], [useState(false)]. *)
Definition initial : Hook :=
  {| sockets := ∅; next_socket := 0; timers := ∅; next_timer := 1; clock := 0;
     wsRef := None; reconnectTimeoutRef := None; connected := false;
     state := Val JNull; reconnecting := false; console := [] |}.

(** [wsRef.current?.readyState === WebSocket.OPEN] *)
Definition ws_open (h : Hook) : bool :=
  match wsRef h with
  | Some ws =>
      match sockets h !! ws with
      | Some s => bool_decide (readyState s = OPEN)
      | None => false
      end
  | None => false
  end.

(** A timer handle is a number; [if (handle)] takes 0 for false. *)
Definition truthy_handle (r : option nat) : option nat :=
  match r with
  | Some (S n) => Some (S n)
  | _ => None
  end.

(** [clearTimeout(id)]: forgets the timeout if it is still pending. *)
Definition clearTimeout (id : nat) (h : Hook) : Hook :=
  set_timers (delete id (timers h)) h.

(** [window.setTimeout(cb, delay)] where [cb] reconnects to [url];
    returns the new handle. *)
Definition setTimeout (url : string) (delay : Z) (h : Hook) : nat * Hook :=
  let id := next_timer h in
  (id, set_next_timer (S id)
         (set_timers (<[id := {| fires_at := clock h + delay; reconnect_url := url |}]>
                        (timers h)) h)).

(** [connect] of a render whose argument is [url]. *)
Definition connect (url : string) (h : Hook) : Hook :=
  if ws_open h then h
  else
    let h := setReconnecting true h in
    let ws := next_socket h in
    let h := set_next_socket (S ws)
               (set_sockets (<[ws := {| ws_url := url; readyState := CONNECTING;
                                        outbox := [] |}]> (sockets h)) h) in
    set_wsRef (Some ws) h.

Definition onopen (h : Hook) : Hook :=
  let h := console_log "Connected" h in
  let h := setConnected true h in
  let h := setReconnecting false h in
  match truthy_handle (reconnectTimeoutRef h) with
  | Some id => set_reconnectTimeoutRef None (clearTimeout id h)
  | None => h
  end.

Definition onclose (url : string) (h : Hook) : Hook :=
  let h := console_log "Disconnected" h in
  let h := setConnected false h in
  let h := setReconnecting true h in
  let '(id, h) := setTimeout url 2000 h in
  set_reconnectTimeoutRef (Some id) h.

(** The callback of the timeout registered by [onclose]. *)
Definition reconnect_callback (url : string) (h : Hook) : Hook :=
  connect url (console_log "Reconnecting..." h).

Definition onerror (h : Hook) : Hook := setReconnecting true h.

(** Property read [data.k] on a decoded value.  Reading a property of
    [null] throws; numbers, strings, booleans and arrays have no own
    property of the names read here. *)
Definition get_prop (data : json) (k : string) : completion jsval :=
  match data with
  | JNull => Throw TypeError
  | JObj fields =>
      Ok (match list_find (λ kv, kv.1 = k) fields with
          | Some (_, (_, v)) => Val v
          | None => Undefined
          end)
  | _ => Ok Undefined
  end.

(** [v === "state"] *)
Definition is_string (v : jsval) (s : string) : bool :=
  match v with
  | Val (JStr s') => bool_decide (s' = s)
  | _ => false
  end.

(** [{ type, payload }]; a property whose value is [undefined] is left
    out by [JSON.stringify]. *)
Definition envelope (type : string) (payload : jsval) : json :=
  JObj (("type", JStr type) ::
        match payload with
        | Val p => [("payload", p)]
        | Undefined => []
        end).

Definition join_envelope (roomId playerName : string) : json :=
  JObj [("type", JStr "join"); ("roomId", JStr roomId);
        ("payload", JObj [("name", JStr playerName)])].

(** [ws.send(data)] of the WebSocket API: throws while the socket is
    still connecting, writes when it is open, drops the data afterwards. *)
Definition ws_send (ws : nat) (data : string) (h : Hook) : completion Hook :=
  match sockets h !! ws with
  | Some s =>
      match readyState s with
      | CONNECTING => Throw InvalidStateError
      | OPEN =>
          Ok (set_sockets (<[ws := {| ws_url := ws_url s; readyState := OPEN;
                                      outbox := outbox s ++ [data] |}]> (sockets h)) h)
      | _ => Ok h
      end
  | None => Ok h
  end.

(** [ws.close()]: an open or connecting socket starts closing; its
    close event comes later, from the event loop. *)
Definition ws_close (ws : nat) (h : Hook) : Hook :=
  match sockets h !! ws with
  | Some s =>
      match readyState s with
      | CONNECTING | OPEN =>
          set_sockets (<[ws := {| ws_url := ws_url s; readyState := CLOSING;
                                  outbox := outbox s |}]> (sockets h)) h
      | _ => h
      end
  | None => h
  end.

(** The function returned by the effect. *)
Definition effect_cleanup (h : Hook) : Hook :=
  let h := match truthy_handle (reconnectTimeoutRef h) with
           | Some id => clearTimeout id h
           | None => h
           end in
  match wsRef h with
  | Some ws => ws_close ws h
  | None => h
  end.

Section Handlers.

(** [JSON.parse] and [JSON.stringify] belong to the runtime. *)
Variable JSON_parse : string → completion json.
Variable JSON_stringify : json → string.

Definition onmessage (raw : string) (h : Hook) : completion Hook :=
  try_catch
    (data ←! JSON_parse raw;
     ty ←! get_prop data "type";
     if is_string ty "state"
     then (st ←! get_prop data "state"; Ok (setState st h))
     else Ok h)
    (λ err, Ok (console_log "Parse error:" h)).

Definition send (type : string) (payload : jsval) (h : Hook) : completion Hook :=
  if negb (ws_open h) then Ok h
  else match wsRef h with
       | Some ws => ws_send ws (JSON_stringify (envelope type payload)) h
       | None => Ok h
       end.

Definition joinRoom (roomId playerName : string) (h : Hook) : completion Hook :=
  if negb (ws_open h) then Ok h
  else match wsRef h with
       | Some ws => ws_send ws (JSON_stringify (join_envelope roomId playerName)) h
       | None => Ok h
       end.

(** What the event loop can deliver to the hook. *)
Inductive Event :=
| SocketOpened (ws : nat)
| SocketClosed (ws : nat)
| SocketError (ws : nat)
| SocketMessage (ws : nat) (raw : string)
| TimeoutFired (id : nat)
| Elapsed (ms : Z)
| EffectRerun (url : string)       (* [url] changed: cleanup, then the effect *)
| Unmounted.                       (* cleanup only *)

Definition set_readyState (ws : nat) (r : ReadyState) (h : Hook) : Hook :=
  match sockets h !! ws with
  | Some s =>
      set_sockets (<[ws := {| ws_url := ws_url s; readyState := r;
                              outbox := outbox s |}]> (sockets h)) h
  | None => h
  end.

(** One turn of the event loop; [None] when the event cannot occur in
    this state (a socket opens once, closes once, a timeout fires only
    while pending and due).  An exception escaping a handler is reported
    by the runtime and leaves the state as it was. *)
Definition step (h : Hook) (ev : Event) : option Hook :=
  match ev with
  | SocketOpened ws =>
      s ← sockets h !! ws;
      if decide (readyState s = CONNECTING)
      then Some (onopen (set_readyState ws OPEN h)) else None
  | SocketClosed ws =>
      s ← sockets h !! ws;
      if decide (readyState s = CLOSED) then None
      else Some (onclose (ws_url s) (set_readyState ws CLOSED h))
  | SocketError ws =>
      s ← sockets h !! ws;
      if decide (readyState s = CLOSED) then None else Some (onerror h)
  | SocketMessage ws raw =>
      s ← sockets h !! ws;
      if decide (readyState s = OPEN)
      then Some (match onmessage raw h with Ok h' => h' | Throw _ => h end)
      else None
  | TimeoutFired id =>
      t ← timers h !! id;
      if decide (fires_at t ≤ clock h)
      then Some (reconnect_callback (reconnect_url t) (clearTimeout id h))
      else None
  | Elapsed ms =>
      if decide (0 ≤ ms) then Some (set_clock (clock h + ms) h) else None
  | EffectRerun url => Some (connect url (effect_cleanup h))
  | Unmounted => Some (effect_cleanup h)
  end.

Fixpoint run (h : Hook) (evs : list Event) : option Hook :=
  match evs with
  | [] => Some h
  | ev :: evs' => h' ← step h ev; run h' evs'
  end.

(** The hook after its first effect. *)
Definition mount (url : string) : Hook := connect url initial.

End Handlers.

(** A serializer and a decoder to run the handlers on concrete frames:
    the serializer writes strings without escapes, the decoder knows
    three texts and rejects every other one. *)
Definition quoted (s : string) : string :=
  String (Ascii.ascii_of_nat 34) s +:+ String (Ascii.ascii_of_nat 34) EmptyString.

Fixpoint sample_stringify (j : json) : string :=
  match j with
  | JNull => "null"
  | JBool b => if b then "true" else "false"
  | JNum n => pretty n
  | JStr s => quoted s
  | JArr l =>
      "[" +:+
      (fix items (l : list json) : string :=
         match l with
         | [] => ""
         | x :: l' =>
             sample_stringify x +:+
             match l' with [] => "" | _ => "," +:+ items l' end
         end) l +:+ "]"
  | JObj fields =>
      "{" +:+
      (fix members (fs : list (string * json)) : string :=
         match fs with
         | [] => ""
         | (k, v) :: fs' =>
             quoted k +:+ ":" +:+ sample_stringify v +:+
             match fs' with [] => "" | _ => "," +:+ members fs' end
         end) fields +:+ "}"
  end.

Definition lobby_frame : json :=
  JObj [("type", JStr "state"); ("state", JObj [("phase", JStr "LOBBY")])].

Definition sample_parse (raw : string) : completion json :=
  if decide (raw = "null") then Ok JNull
  else if decide (raw = "[1]") then Ok (JArr [JNum 1])
  else if decide (raw = sample_stringify lobby_frame) then Ok lobby_frame
  else Throw SyntaxError.

Definition is_rerun (ev : Event) : bool :=
  match ev with
  | EffectRerun _ => true
  | _ => false
  end.

(** Timer handles are positive and handed out in increasing order. *)
Definition handles_fresh (h : Hook) : Prop :=
  (0 < next_timer h)%nat ∧
  (∀ id, is_Some (timers h !! id) → (id < next_timer h)%nat) ∧
  (∀ id, reconnectTimeoutRef h = Some id → (0 < id)%nat).

(** Either no timeout is pending and the only socket that may still
    raise an event is the one [wsRef] holds, or every socket has closed
    and the one pending timeout is the one [reconnectTimeoutRef] holds. *)
Definition single_flight (h : Hook) : Prop :=
  (timers h = ∅ ∧
   ∀ ws s, sockets h !! ws = Some s → readyState s ≠ CLOSED → wsRef h = Some ws)
  ∨
  (∃ id t, timers h = {[id := t]} ∧ reconnectTimeoutRef h = Some id ∧
     ∀ ws s, sockets h !! ws = Some s → readyState s = CLOSED).

(** [connected] and [reconnecting] against the transport: a pending
    timeout, or a current socket that is connecting or closed, goes with
    "not connected, reconnecting"; an open current socket goes with
    "connected". *)
Definition flags_consistent (h : Hook) : Prop :=
  (timers h ≠ ∅ → connected h = false ∧ reconnecting h = true) ∧
  (∀ ws s, wsRef h = Some ws → sockets h !! ws = Some s →
     match readyState s with
     | CONNECTING | CLOSED => connected h = false ∧ reconnecting h = true
     | OPEN => connected h = true
     | CLOSING => True
     end).

(** The "Reconnecting..." overlay of [App]: [reconnecting && !connected]. *)
Definition reconnecting_overlay (h : Hook) : bool :=
  reconnecting h && negb (connected h).

(** Every socket made so far and every pending retry is for [u]. *)
Definition targets (u : string) (h : Hook) : Prop :=
  (∀ ws s, sockets h !! ws = Some s → ws_url s = u) ∧
  (∀ id t, timers h !! id = Some t → reconnect_url t = u).

(** Calls of [send], one after the other. *)
Fixpoint send_all (stringify : json → string) (msgs : list (string * jsval))
    (h : Hook) : completion Hook :=
  match msgs with
  | [] => Ok h
  | (type, payload) :: msgs' =>
      h' ←! send stringify type payload h; send_all stringify msgs' h'
  end.

End Ws.

(** ** The [TurnTimer] component

    The component has one state variable ([timeLeft]) and one ref
    ([intervalRef]); its effect depends on the three props.  The
    intervals registered with the window and not yet cleared are kept as
    a set of handles.  [sounds.tick()] is a call on a prop: the calls
    are recorded, each with the value of [newTime] at the call. *)

Module Timer.

Record Props := {
  isActive : bool;
  currentPlayer : option string;      (* [string | null] *)
  duration : Z;
}.

#[global] Instance Props_eq_dec : EqDecision Props.
Proof. solve_decision. Defined.

(** The parameter list: [duration = 20] when the prop is not given. *)
Definition make_props (isActive : bool) (currentPlayer : option string)
    (duration : option Z) : Props :=
  {| isActive := isActive; currentPlayer := currentPlayer;
     duration := default 20 duration |}.

Record TurnTimer := {
  props : Props;                      (* the props of the last render *)
  timeLeft : Z;
  intervalRef : option nat;
  intervals : gset nat;
  next_interval : nat;                (* handles are positive integers *)
  has_cleanup : bool;                 (* did the last effect return its cleanup *)
  ticks : list Z;
}.

Definition setTimeLeft (v : Z) (t : TurnTimer) : TurnTimer :=
  {| props := props t; timeLeft := v; intervalRef := intervalRef t;
     intervals := intervals t; next_interval := next_interval t;
     has_cleanup := has_cleanup t; ticks := ticks t |}.

Definition set_props (v : Props) (t : TurnTimer) : TurnTimer :=
  {| props := v; timeLeft := timeLeft t; intervalRef := intervalRef t;
     intervals := intervals t; next_interval := next_interval t;
     has_cleanup := has_cleanup t; ticks := ticks t |}.

Definition set_has_cleanup (v : bool) (t : TurnTimer) : TurnTimer :=
  {| props := props t; timeLeft := timeLeft t; intervalRef := intervalRef t;
     intervals := intervals t; next_interval := next_interval t;
     has_cleanup := v; ticks := ticks t |}.

Definition sounds_tick (newTime : Z) (t : TurnTimer) : TurnTimer :=
  {| props := props t; timeLeft := timeLeft t; intervalRef := intervalRef t;
     intervals := intervals t; next_interval := next_interval t;
     has_cleanup := has_cleanup t; ticks := ticks t ++ [newTime] |}.

(** [!currentPlayer] is true of [null] and of the empty string. *)
Definition has_player (p : Props) : bool :=
  match currentPlayer p with
  | Some s => negb (bool_decide (s = ""))
  | None => false
  end.

(** The negation of the guard [!isActive || !currentPlayer]. *)
Definition active (p : Props) : bool := isActive p && has_player p.

(** [if (intervalRef.current) { clearInterval(intervalRef.current);
    intervalRef.current = null; }] *)
Definition clear_interval_ref (t : TurnTimer) : TurnTimer :=
  match intervalRef t with
  | Some (S n) =>
      {| props := props t; timeLeft := timeLeft t; intervalRef := None;
         intervals := intervals t ∖ {[S n]}; next_interval := next_interval t;
         has_cleanup := has_cleanup t; ticks := ticks t |}
  | _ => t
  end.

(** [intervalRef.current = window.setInterval(cb, 1000)] *)
Definition setInterval (t : TurnTimer) : TurnTimer :=
  let id := next_interval t in
  {| props := props t; timeLeft := timeLeft t; intervalRef := Some id;
     intervals := intervals t ∪ {[id]}; next_interval := S id;
     has_cleanup := has_cleanup t; ticks := ticks t |}.

(** The body of the effect, run with the props [p] of the render. *)
Definition effect (p : Props) (t : TurnTimer) : TurnTimer :=
  let t := clear_interval_ref t in
  let t := setTimeLeft (duration p) t in
  if negb (isActive p) || negb (has_player p) then set_has_cleanup false t
  else set_has_cleanup true (setInterval t).

(** The function the effect returns, when it returns one. *)
Definition cleanup (t : TurnTimer) : TurnTimer :=
  if has_cleanup t then clear_interval_ref t else t.

(** The interval callback: [setTimeLeft((t) => ..)]. *)
Definition on_interval (t : TurnTimer) : TurnTimer :=
  let newTime := timeLeft t - 1 in
  let t := if (newTime <=? 5) && (0 <? newTime) then sounds_tick newTime t else t in
  if newTime <=? 0 then setTimeLeft 0 (clear_interval_ref t)
  else setTimeLeft newTime t.

(** First render and first effect: [useState(duration)], [useRef(null)]. *)
Definition mount (p : Props) : TurnTimer :=
  effect p {| props := p; timeLeft := duration p; intervalRef := None;
              intervals := ∅; next_interval := 1; has_cleanup := false;
              ticks := [] |}.

Inductive Event :=
| Rendered (p : Props)          (* the parent rendered the component with [p] *)
| IntervalFired (id : nat).

(** A render runs the cleanup and the effect when one of the three
    dependencies differs from the last render; an interval fires only
    while it is registered. *)
Definition step (t : TurnTimer) (ev : Event) : option TurnTimer :=
  match ev with
  | Rendered p =>
      if decide (p = props t) then Some t
      else Some (effect p (cleanup (set_props p t)))
  | IntervalFired id =>
      if decide (id ∈ intervals t) then Some (on_interval t) else None
  end.

Fixpoint run (t : TurnTimer) (evs : list Event) : option TurnTimer :=
  match evs with
  | [] => Some t
  | ev :: evs' => t' ← step t ev; run t' evs'
  end.

(** RUNNING: the interval the ref points to is registered. *)
Definition running (t : TurnTimer) : bool :=
  match intervalRef t with
  | Some id => bool_decide (id ∈ intervals t)
  | None => false
  end.

(** What the component renders: nothing under the guard, else the
    number shown and the low-time flag ([timeLeft <= 5]). *)
Definition view (t : TurnTimer) : option (Z * bool) :=
  if negb (isActive (props t)) || negb (has_player (props t)) then None
  else Some (timeLeft t, bool_decide (timeLeft t ≤ 5)).

(** The interval registered with the window is the one the ref holds. *)
Definition timer_inv (t : TurnTimer) : Prop :=
  (0 < next_interval t)%nat ∧
  match intervalRef t with
  | Some id => intervals t = {[id]} ∧ (0 < id)%nat
  | None => intervals t = ∅
  end.

(** An interval is registered only under the triggering condition. *)
Definition idle_unless_active (t : TurnTimer) : Prop :=
  running t = true → active (props t) = true.

Definition in_range (t : TurnTimer) : Prop :=
  0 ≤ timeLeft t ≤ duration (props t).

Definition nonneg_duration (ev : Event) : Prop :=
  match ev with
  | Rendered p => 0 ≤ duration p
  | IntervalFired _ => True
  end.

End Timer.

(** ** Derivations made by [App] *)

Module App.

Inductive Phase := LOBBY | SHUFFLING | DEALING | INSURANCE | PLAYER | DEALER | RESULT.

#[global] Instance Phase_eq_dec : EqDecision Phase.
Proof. solve_decision. Defined.

Record Player := {
  id : string;
  name : string;
  stack : Z;
  bet : Z;
  insuranceBet : option Z;
  ready : bool;
  cards : list Cards.Card;
  status : string;
  result : option string;
}.

Record GameState := {
  code : string;
  players : list Player;
  dealer : list Cards.Card;
  phase : Phase;
  turnIdx : Z;
}.

Definition player_named (n : string) : Player :=
  {| id := n; name := n; stack := 1000; bet := 0; insuranceBet := None;
     ready := true; cards := []; status := "playing"; result := None |}.

Definition snapshot (ps : list Player) (ph : Phase) (idx : Z) : GameState :=
  {| code := "ROOM42"; players := ps; dealer := []; phase := ph; turnIdx := idx |}.

(** [state?.turnIdx >= 0 ? state?.players[state.turnIdx] : null], with
    [state] of type [GameState | null].  [None] stands for both [null]
    and [undefined] (an index past the end): every use below is through
    [?.], which treats the two alike. *)
Definition currentPlayer (state : option GameState) : option Player :=
  match state with
  | Some s => if 0 <=? turnIdx s then players s !! Z.to_nat (turnIdx s) else None
  | None => None
  end.

(** [state?.phase === "PLAYER" && currentPlayer?.name === name] *)
Definition isMyTurn (state : option GameState) (my_name : string) : bool :=
  match state with
  | Some s =>
      bool_decide (phase s = PLAYER) &&
      match currentPlayer state with
      | Some p => bool_decide (name p = my_name)
      | None => false
      end
  | None => false
  end.

(** The props [App] gives [TurnTimer]:
    [isActive={state?.phase === "PLAYER"}],
    [currentPlayer={currentPlayer?.name || null}], [duration={20}]. *)
Definition timer_props (state : option GameState) : Timer.Props :=
  Timer.make_props
    (match state with
     | Some s => bool_decide (phase s = PLAYER)
     | None => false
     end)
    (match currentPlayer state with
     | Some p => if decide (name p = "") then None else Some (name p)
     | None => None
     end)
    (Some 20).

(** [state?.players.find(p => p.name === name)] *)
Definition me (state : option GameState) (my_name : string) : option Player :=
  match state with
  | Some s => snd <$> list_find (λ p, name p = my_name) (players s)
  | None => None
  end.

(** [state?.phase === "DEALER" || state?.phase === "RESULT"] *)
Definition showDealerSecondCard (state : option GameState) : bool :=
  match state with
  | Some s => bool_decide (phase s = DEALER) || bool_decide (phase s = RESULT)
  | None => false
  end.

(** [calculateValue(state?.dealer.cards || [])] *)
Definition dealerValue (state : option GameState) : Z :=
  Cards.calculateValue (match state with Some s => dealer s | None => [] end).

(** The dealer total as rendered: shown when the dealer has cards and
    the second card is shown. *)
Definition dealer_total_shown (state : option GameState) : option Z :=
  match state with
  | Some s =>
      if negb (bool_decide (dealer s = [])) && showDealerSecondCard state
      then Some (dealerValue state) else None
  | None => None
  end.

(** The [hidden] prop of the dealer card at [idx]:
    [idx === 1 && !showDealerSecondCard]. *)
Definition dealer_card_hidden (state : option GameState) (idx : nat) : bool :=
  bool_decide (idx = 1%nat) && negb (showDealerSecondCard state).

(** The [isActive] prop of the [PlayerSpot] at [idx]:
    [state.phase === "PLAYER" && state.turnIdx === idx]. *)
Definition spot_isActive (s : GameState) (idx : nat) : bool :=
  bool_decide (phase s = PLAYER) && bool_decide (turnIdx s = Z.of_nat idx).

End App.

(** ** State and handlers of the [App] component *)

Module Ui.

Record ChatMessage := {
  id : string;
  player : string;
  message : string;
  timestamp : Z;
}.

(** [l.slice(-n)]: the last [n] elements, all of them when there are
    fewer. *)
Definition slice_last {A} (n : nat) (l : list A) : list A :=
  drop (length l - n) l.

(** [handleSendChat]; [fresh_id] is [Math.random().toString(36)] and
    [now] is [Date.now()]. *)
Definition handleSendChat (my_name fresh_id : string) (now : Z) (text : string)
    (chatMessages : list ChatMessage) : list ChatMessage :=
  let newMsg := {| id := fresh_id; player := my_name; message := text;
                   timestamp := now |} in
  slice_last 50 (chatMessages ++ [newMsg]).

Record Stats := {
  gamesPlayed : Z;
  wins : Z;
  losses : Z;
  pushes : Z;
  blackjacks : Z;
  currentStreak : Z;
  bestStreak : Z;
}.

Definition no_stats : Stats :=
  {| gamesPlayed := 0; wins := 0; losses := 0; pushes := 0; blackjacks := 0;
     currentStreak := 0; bestStreak := 0 |}.

(** The counters are JavaScript numbers; a [Stats] holds those whose
    value is an integer.  [round_double n] is the double nearest to the
    integer [n], ties to the even significand: every integer up to 2^53
    in size is a double, beyond that the lowest bits are rounded off. *)
Definition round_double (n : Z) : Z :=
  let a := Z.abs n in
  if a <=? 2 ^ 53 then n
  else
    let e := Z.log2 a - 52 in
    let q := a / 2 ^ e in
    let r := a mod 2 ^ e in
    let half := 2 ^ (e - 1) in
    let q' := if r <? half then q
              else if half <? r then q + 1
              else if Z.even q then q else q + 1 in
    Z.sgn n * (q' * 2 ^ e).

(** [x++] on a counter. *)
Definition incr (x : Z) : Z := round_double (x + 1).

(** The statistics update made on entering [RESULT]: [newStats] after
    the [if]/[else if]/[else] on [me.result]. *)
Definition update_stats (result : string) (stats : Stats) : Stats :=
  let played := incr (gamesPlayed stats) in
  if bool_decide (result = "WIN") || bool_decide (result = "BLACKJACK") then
    let streak := incr (currentStreak stats) in
    {| gamesPlayed := played;
       wins := incr (wins stats);
       losses := losses stats;
       pushes := pushes stats;
       blackjacks := if bool_decide (result = "BLACKJACK")
                     then incr (blackjacks stats) else blackjacks stats;
       currentStreak := streak;
       bestStreak := if bestStreak stats <? streak then streak else bestStreak stats |}
  else if bool_decide (result = "LOSE") || bool_decide (result = "BUST") then
    {| gamesPlayed := played;
       wins := wins stats;
       losses := incr (losses stats);
       pushes := pushes stats;
       blackjacks := blackjacks stats;
       currentStreak := 0;
       bestStreak := bestStreak stats |}
  else
    {| gamesPlayed := played;
       wins := wins stats;
       losses := losses stats;
       pushes := incr (pushes stats);
       blackjacks := blackjacks stats;
       currentStreak := currentStreak stats;
       bestStreak := bestStreak stats |}.

(** What the effect on [state?.phase] reads and writes. *)
Record ResultUi := {
  stats : Stats;
  showResult : bool;
  myResult : option string;
  prevPhaseRef : option App.Phase;
  hide_timeouts : nat;                  (* pending [setTimeout(.., 3000)] *)
  last_phase : option App.Phase;        (* [state?.phase] at the last render *)
}.

Definition phase_of (state : option App.GameState) : option App.Phase :=
  App.phase <$> state.

(** [me?.result] when it is truthy: a result that is not the empty
    string. *)
Definition my_result (state : option App.GameState) (my_name : string) : option string :=
  match App.me state my_name with
  | Some m =>
      match App.result m with
      | Some r => if bool_decide (r = "") then None else Some r
      | None => None
      end
  | None => None
  end.

(** The body of the effect whose dependency is [state?.phase]. *)
Definition phase_effect (my_name : string) (state : option App.GameState)
    (u : ResultUi) : ResultUi :=
  let u :=
    if bool_decide (phase_of state = Some App.RESULT) &&
       negb (bool_decide (prevPhaseRef u = Some App.RESULT))
    then
      match my_result state my_name with
      | Some r =>
          {| stats := update_stats r (stats u); showResult := true;
             myResult := Some r; prevPhaseRef := prevPhaseRef u;
             hide_timeouts := S (hide_timeouts u); last_phase := last_phase u |}
      | None => u
      end
    else u in
  {| stats := stats u; showResult := showResult u; myResult := myResult u;
     prevPhaseRef := phase_of state; hide_timeouts := hide_timeouts u;
     last_phase := last_phase u |}.

(** A render with a new value of [state]: the effect runs when
    [state?.phase] differs from the last render. *)
Definition on_snapshot (my_name : string) (u : ResultUi)
    (state : option App.GameState) : ResultUi :=
  if decide (phase_of state = last_phase u) then u
  else
    let u' := phase_effect my_name state u in
    {| stats := stats u'; showResult := showResult u'; myResult := myResult u';
       prevPhaseRef := prevPhaseRef u'; hide_timeouts := hide_timeouts u';
       last_phase := phase_of state |}.

(** The first render ([state] is [null]) and its effect, with the
    statistics the component starts from. *)
Definition mounted (st : Stats) : ResultUi :=
  phase_effect ""
    None
    {| stats := st; showResult := false; myResult := None; prevPhaseRef := None;
       hide_timeouts := 0; last_phase := None |}.

(** The invariants of the statistics the updates keep. *)
Definition stats_ok (st : Stats) : Prop :=
  gamesPlayed st = wins st + losses st + pushes st ∧
  0 ≤ currentStreak st ≤ bestStreak st ∧
  currentStreak st ≤ wins st ∧
  0 ≤ blackjacks st ≤ wins st ∧
  0 ≤ losses st ∧ 0 ≤ pushes st.

(** The hook and the audio backend, as the action handlers change
    them. *)
Record World := {
  hook : Ws.Hook;
  audio : Sounds.Backend;
}.

Section Handlers.

Variable JSON_stringify : Ws.json → string.
Variable muted : bool.

Definition send_action (type : string) (w : World) : completion World :=
  h ←! Ws.send JSON_stringify type Ws.Undefined (hook w);
  Ok {| hook := h; audio := audio w |}.

Definition play_cardDeal (w : World) : World :=
  {| hook := hook w; audio := Sounds.cardDeal (Sounds.sounds muted) (audio w) |}.

Definition handleHit (w : World) : completion World :=
  send_action "hit" (play_cardDeal w).

Definition handleStand (w : World) : completion World :=
  send_action "stand" w.

Definition handleDouble (w : World) : completion World :=
  send_action "double" (play_cardDeal w).

(** [handleKeyPress] of the render with this [state] and [name];
    [key] is [e.key]. *)
Definition handleKeyPress (state : option App.GameState) (my_name : string)
    (key : string) (w : World) : completion World :=
  if negb (App.isMyTurn state my_name) then Ok w
  else
    w ←! (if bool_decide (key = "h") || bool_decide (key = "H")
          then handleHit w else Ok w);
    w ←! (if bool_decide (key = "s") || bool_decide (key = "S")
          then handleStand w else Ok w);
    if bool_decide (key = "d") || bool_decide (key = "D")
    then handleDouble w else Ok w.

End Handlers.

End Ui.

(** ** Who reads the mute flag

    [muted] is a state variable of each instance of [useSounds], and a
    cue reads the value its [sounds] object was built with.  [App] has
    one instance, whose flag the speaker button toggles; every
    [CardComponent] has another; the keypress listener and the interval
    callback of [TurnTimer] keep the [sounds] object of the render in
    which their effect last ran. *)

Module AppSounds.

(** [CardComponent]: [const { sounds } = useSounds()] and
    [hasPlayedRef].  The component takes no setter from its instance, so
    the flag of that instance stays what [useState(false)] made it. *)
Record CardComponent := {
  own_muted : bool;
  hasPlayedRef : bool;
}.

Definition card_mounted : CardComponent :=
  {| own_muted := false; hasPlayedRef := false |}.

(** The effect of [CardComponent]:
    [if (playSound && !hidden && !hasPlayedRef.current)
       { sounds.cardDeal(); hasPlayedRef.current = true; }] *)
Definition card_effect (playSound hidden : bool) (c : CardComponent)
    (b : Sounds.Backend) : CardComponent * Sounds.Backend :=
  if playSound && negb hidden && negb (hasPlayedRef c)
  then ({| own_muted := own_muted c; hasPlayedRef := true |},
        Sounds.cardDeal (Sounds.sounds (own_muted c)) b)
  else (c, b).

(** [App]: the flag of its instance, the value of [muted] in the
    render whose [handleKeyPress] is the registered listener (effect
    with dependency [state]), and the value in the render whose [sounds]
    the running interval of [TurnTimer] holds (effect with dependencies
    [isActive], [currentPlayer], [duration]). *)
Record MuteView := {
  muted : bool;
  listener_muted : bool;
  timer_muted : bool;
}.

Definition app_mounted : MuteView :=
  {| muted := false; listener_muted := false; timer_muted := false |}.

(** [onClick={() => setMuted(!muted)}]: a render with the new flag and
    the same [state] and turn, so neither effect runs again. *)
Definition mute_clicked (v : MuteView) : MuteView :=
  {| muted := negb (muted v); listener_muted := listener_muted v;
     timer_muted := timer_muted v |}.

(** A render with a new [state]: the listener is registered again;
    the interval is started again when the turn changed with it. *)
Definition state_changed (turn_changed : bool) (v : MuteView) : MuteView :=
  {| muted := muted v; listener_muted := muted v;
     timer_muted := if turn_changed then muted v else timer_muted v |}.

(** A key press reaches the registered listener. *)
Definition key_pressed (stringify : Ws.json → string) (state : option App.GameState)
    (my_name key : string) (v : MuteView) (w : Ui.World) : completion Ui.World :=
  Ui.handleKeyPress stringify (listener_muted v) state my_name key w.

(** [sounds.tick()] in the interval callback of [TurnTimer]. *)
Definition timer_tick (v : MuteView) (b : Sounds.Backend) : Sounds.Backend :=
  Sounds.tick (Sounds.sounds (timer_muted v)) b.

End AppSounds.

(** * Theorems *)

(** ** Hand value *)

Section HandValue.
Import Cards.

Lemma parseInt_rank r :
  r ≠ RA → r ≠ RJ → r ≠ RQ → r ≠ RK →
  parseInt (rank_str r) = Some (spec_soft_points r).
Proof. destruct r; intros; try congruence; reflexivity. Qed.

Lemma add_card_points sum aces c :
  add_card (sum, aces) c =
    (sum + spec_soft_points (rank c),
     if decide (rank c = RA) then S aces else aces).
Proof. destruct c as [i s r]; destruct r; reflexivity. Qed.

Lemma foldl_add_card cards : ∀ sum aces,
  foldl add_card (sum, aces) cards =
    (sum + total_with spec_soft_points cards, (aces + count_aces cards)%nat).
Proof.
  induction cards as [|c cards IH]; intros sum aces; cbn [foldl].
  - f_equal; [simpl; lia | unfold count_aces; simpl; lia].
  - rewrite add_card_points, IH. unfold count_aces.
    rewrite filter_cons. destruct (decide (rank c = RA)); simpl; f_equal; lia.
Qed.

Lemma downgrade_stops aces : ∀ sum,
  (downgrade aces sum).1 ≤ 21 ∨ (downgrade aces sum).2 = O.
Proof.
  induction aces as [|a IH]; intros sum; simpl; [by right|].
  destruct (21 <? sum) eqn:E; [apply IH|].
  left; simpl. by apply Z.ltb_ge.
Qed.

Lemma downgrade_arith aces : ∀ sum,
  ((downgrade aces sum).2 ≤ aces)%nat ∧
  (downgrade aces sum).1 = sum - 10 * (Z.of_nat aces - Z.of_nat (downgrade aces sum).2).
Proof.
  induction aces as [|a IH]; intros sum; simpl; [split; lia|].
  destruct (21 <? sum) eqn:E; simpl; [|split; lia].
  destruct (IH (sum - 10)) as [Hle Heq]. split; [lia|]. rewrite Heq. lia.
Qed.

Lemma total_soft_hard cards :
  total_with spec_soft_points cards =
    total_with spec_hard_points cards + 10 * Z.of_nat (count_aces cards).
Proof.
  induction cards as [|c cards IH]; [reflexivity|].
  unfold count_aces in *. simpl. rewrite filter_cons, IH.
  destruct (decide (rank c = RA)) as [->|Hne]; simpl length.
  - simpl. lia.
  - destruct (rank c); try congruence; simpl; lia.
Qed.

Lemma final_vars_unfold cards :
  final_vars cards =
    downgrade (count_aces cards) (total_with spec_soft_points cards).
Proof. unfold final_vars. by rewrite foldl_add_card. Qed.

Lemma total_with_perm f h1 h2 :
  rank <$> h1 ≡ₚ rank <$> h2 → total_with f h1 = total_with f h2.
Proof.
  assert (Hsum : ∀ h, total_with f h = foldr (λ r acc, f r + acc) 0 (rank <$> h)).
  { induction h as [|c h IH]; simpl; [done | by rewrite IH]. }
  intros Hp. rewrite !Hsum. clear Hsum.
  induction Hp as [|x l l' _ IH|x y l|l l' l'' _ IH1 _ IH2]; simpl; lia.
Qed.

Lemma count_aces_perm h1 h2 :
  rank <$> h1 ≡ₚ rank <$> h2 → count_aces h1 = count_aces h2.
Proof.
  assert (Hc : ∀ h, count_aces h = length (filter (λ r, r = RA) (rank <$> h))).
  { unfold count_aces. induction h as [|c h IH]; [done|].
    rewrite fmap_cons, !filter_cons. destruct (decide (rank c = RA)); simpl; by rewrite IH. }
  intros Hp. rewrite !Hc. by rewrite Hp.
Qed.

(** C6: the value returned for a hand is at most 21, or no ace of the
    hand is still counted as 11; here [soft_aces] is the ace counter as
    the loop leaves it, which is the number of aces counted as 11 in the
    returned total: the total is the hard total (every ace as 1) plus 10
    for each of them. *)
Theorem evaluate_not_reducible cards :
  (calculateValue cards ≤ 21 ∨ soft_aces cards = O) ∧
  (soft_aces cards ≤ count_aces cards)%nat ∧
  calculateValue cards =
    total_with spec_hard_points cards + 10 * Z.of_nat (soft_aces cards).
Proof.
  unfold calculateValue, soft_aces. rewrite final_vars_unfold.
  split; [apply downgrade_stops|].
  destruct (downgrade_arith (count_aces cards) (total_with spec_soft_points cards))
    as [Hle Heq].
  split; [done|]. rewrite Heq, total_soft_hard. lia.
Qed.

(** C7: the reference hands evaluate to 21, 12, 21, 22 and 0; a number
    card adds its face value, J/Q/K add 10, an ace adds 11 and each pass
    of the downgrade loop taken above 21 takes 10 off. *)
Theorem evaluate_reference_values :
  calculateValue [card RA; card RK] = 21 ∧
  calculateValue [card RA; card RA] = 12 ∧
  calculateValue [card RA; card RA; card R9] = 21 ∧
  calculateValue [card RK; card RQ; card R2] = 22 ∧
  calculateValue [] = 0 ∧
  (∀ sum aces c, (add_card (sum, aces) c).1 = sum + spec_soft_points (rank c)) ∧
  (∀ sum aces,
     downgrade (S aces) sum =
       if 21 <? sum then downgrade aces (sum - 10) else (sum, S aces)) ∧
  (∀ sum, downgrade O sum = (sum, O)).
Proof.
  repeat split; try reflexivity.
  intros. by rewrite add_card_points.
Qed.

(** C8: two hands with the same multiset of ranks, in particular a hand
    and any permutation of it, have the same value; evaluation is a
    function of the hand, so evaluating again gives the same value. *)
Theorem evaluate_order_independent h1 h2 :
  rank <$> h1 ≡ₚ rank <$> h2 → calculateValue h1 = calculateValue h2.
Proof.
  intros Hp. unfold calculateValue. rewrite !final_vars_unfold.
  by rewrite (total_with_perm _ _ _ Hp), (count_aces_perm _ _ Hp).
Qed.

Lemma evaluate_order_independent_witness :
  rank <$> [card RA; card R9; card RA] ≡ₚ rank <$> [card R9; card RA; card RA] ∧
  calculateValue [card RA; card R9; card RA] = calculateValue [card R9; card RA; card RA].
Proof.
  assert (H : rank <$> [card RA; card R9; card RA] ≡ₚ rank <$> [card R9; card RA; card RA]).
  { simpl. apply perm_swap. }
  split; [exact H | exact (evaluate_order_independent _ _ H)].
Defined.

End HandValue.

(** ** Audio cues *)

Section AudioCues.
Import Sounds.

Lemma playMelody_muted notes b : playMelody true notes b = b.
Proof.
  unfold playMelody. generalize (imap pair notes). intros l.
  induction l as [|[i n] l IH]; simpl; [done | exact IH].
Qed.

(** Within one [sounds] object: built with the muted flag set, each
    of the seven cue operations returns at its mute check: the backend receives no call, nothing is
    handed to [setTimeout] and nothing is logged, whatever state the
    backend is in. *)
Theorem muted_cues_are_noops (b : Backend) :
  cardDeal (sounds true) b = b ∧
  chipBet (sounds true) b = b ∧
  win (sounds true) b = b ∧
  lose (sounds true) b = b ∧
  blackjack (sounds true) b = b ∧
  tick (sounds true) b = b ∧
  shuffle (sounds true) b = b.
Proof.
  repeat split; try reflexivity; apply playMelody_muted.
Qed.

(** Unmuted, the same operations do reach the backend. *)
Example unmuted_cues_reach_backend :
  length (calls (cardDeal (sounds false) (silent true))) = 15%nat ∧
  length (calls (chipBet (sounds false) (silent true))) = 28%nat ∧
  timeouts (tick (sounds false) (silent true)) = [(0, BeepBody 900%Q 0.05%Q)] ∧
  length (calls (run_timeout 0%Q 0%Q (tick (sounds false) (silent true)))) = 9%nat ∧
  (fst <$> timeouts (blackjack (sounds false) (silent true))) = [0; 120; 240; 360; 480] ∧
  length (timeouts (shuffle (sounds false) (silent true))) = 8%nat ∧
  console (run_timeout 0%Q 0%Q (lose (sounds false) (silent false)))
    = ["Audio not supported"].
Proof. repeat split; vm_compute; reflexivity. Qed.

End AudioCues.

(** ** The mute flag across the components *)

Section MuteFlag.
Import AppSounds.

(** C9: the code at inputs where it breaks the claim.  After one
    click on the speaker button the flag of [App] is set, and still: a
    card that appears plays its cue through the instance of its own
    [CardComponent], whose flag is never set (15 backend calls); the key
    h on the local player's turn reaches the listener registered before
    the click, which plays the card cue of that render (15 backend
    calls); and the interval of the turn clock started before the click
    schedules its tick.  A cue called through the [sounds] object of the
    current render of [App] does nothing. *)
Theorem muted_flag_missed_by_cues :
  let v := mute_clicked app_mounted in
  let s := App.snapshot [App.player_named "Ann"; App.player_named "Bob"] App.PLAYER 1 in
  let w := {| Ui.hook := Ws.onopen (Ws.set_readyState 0 Ws.OPEN
                                      (Ws.mount "ws://localhost:8080"));
              Ui.audio := Sounds.silent true |} in
  muted v = true ∧
  length (Sounds.calls (card_effect true false card_mounted (Sounds.silent true)).2)
    = 15%nat ∧
  (∃ w', key_pressed Ws.sample_stringify (Some s) "Bob" "h" v w = Ok w' ∧
         length (Sounds.calls (Ui.audio w')) = 15%nat) ∧
  Sounds.timeouts (timer_tick v (Sounds.silent true)) =
    [(0, Sounds.BeepBody 900%Q 0.05%Q)] ∧
  Sounds.cardDeal (Sounds.sounds (muted v)) (Sounds.silent true) = Sounds.silent true.
Proof.
  intros v s w. split; [reflexivity|]. split; [vm_compute; reflexivity|].
  split; [|split; vm_compute; reflexivity].
  eexists. split; vm_compute; reflexivity.
Qed.

End MuteFlag.


(** ** Turn clock *)

Section TurnClock.
Import Timer.

Lemma clear_interval_ref_fields t :
  props (clear_interval_ref t) = props t ∧
  timeLeft (clear_interval_ref t) = timeLeft t ∧
  ticks (clear_interval_ref t) = ticks t ∧
  next_interval (clear_interval_ref t) = next_interval t.
Proof. unfold clear_interval_ref. by destruct (intervalRef t) as [[|?]|]. Qed.

Lemma clear_interval_ref_inv t :
  timer_inv t →
  intervalRef (clear_interval_ref t) = None ∧ intervals (clear_interval_ref t) = ∅.
Proof.
  unfold timer_inv, clear_interval_ref. intros [_ H]. revert H.
  destruct (intervalRef t) as [[|n]|] eqn:E; simpl.
  - intros (_ & ?). lia.
  - intros (-> & _). split; [done | apply difference_diag_L].
  - by rewrite E.
Qed.

Lemma effect_spec p t :
  timer_inv t → props t = p →
  timer_inv (effect p t) ∧ timeLeft (effect p t) = duration p ∧
  props (effect p t) = p ∧ ticks (effect p t) = ticks t ∧
  running (effect p t) = active p ∧
  (active p = false → intervalRef (effect p t) = None ∧ intervals (effect p t) = ∅).
Proof.
  intros Hinv Hp. destruct (clear_interval_ref_inv t Hinv) as [Href Hset].
  destruct (clear_interval_ref_fields t) as (Hprops & _ & Hticks & Hnext).
  destruct Hinv as [Hpos _].
  unfold effect, active, timer_inv, running.
  destruct (isActive p) eqn:Ea; destruct (has_player p) eqn:Eh; simpl;
    rewrite ?Href, ?Hset, ?Hprops, ?Hticks, ?Hnext, ?Hp, ?Ea, ?Eh; simpl.
  2-4: by repeat split.
  rewrite (left_id_L ∅ (∪)). repeat split; try done.
  - lia.
  - apply bool_decide_eq_true. by apply elem_of_singleton.
Qed.

Lemma cleanup_set_props_inv p t :
  timer_inv t → timer_inv (cleanup (set_props p t)).
Proof.
  intros Hinv. unfold cleanup. simpl.
  destruct (has_cleanup t); [|exact Hinv].
  assert (Hc : clear_interval_ref (set_props p t) = set_props p (clear_interval_ref t)).
  { unfold clear_interval_ref. simpl. by destruct (intervalRef t) as [[|?]|]. }
  rewrite Hc. destruct (clear_interval_ref_inv t Hinv) as [Href Hset].
  destruct (clear_interval_ref_fields t) as (_ & _ & _ & Hnext).
  unfold timer_inv. simpl. rewrite Href, Hset, Hnext. split; [apply Hinv | done].
Qed.

Lemma cleanup_set_props_fields p t :
  props (cleanup (set_props p t)) = p ∧ ticks (cleanup (set_props p t)) = ticks t.
Proof.
  unfold cleanup. simpl. destruct (has_cleanup t); [|done].
  destruct (clear_interval_ref_fields (set_props p t)) as (? & _ & ? & _). done.
Qed.

(** A render with changed dependencies. *)
Lemma rerender_spec p t :
  timer_inv t → p ≠ props t →
  ∃ t', step t (Rendered p) = Some t' ∧
    timer_inv t' ∧ timeLeft t' = duration p ∧ props t' = p ∧
    ticks t' = ticks t ∧ running t' = active p ∧
    (active p = false → intervalRef t' = None ∧ intervals t' = ∅).
Proof.
  intros Hinv Hne. unfold step. rewrite decide_False by done.
  eexists; split; [done|].
  destruct (cleanup_set_props_fields p t) as [Hp Ht].
  destruct (effect_spec p _ (cleanup_set_props_inv p t Hinv) Hp)
    as (? & ? & ? & Hticks & ? & ?).
  rewrite Hticks, Ht. done.
Qed.

(** The interval callback. *)
Lemma on_interval_spec t :
  props (on_interval t) = props t ∧
  timeLeft (on_interval t) = Z.max 0 (timeLeft t - 1) ∧
  ticks (on_interval t) =
    ticks t ++ (if decide (0 < timeLeft t - 1 ≤ 5) then [timeLeft t - 1] else []).
Proof.
  unfold on_interval.
  destruct (decide (0 < timeLeft t - 1 ≤ 5)) as [Hlow|Hlow].
  - rewrite (proj2 (Z.leb_le _ 5)), (proj2 (Z.ltb_lt 0 _)) by lia. simpl.
    rewrite (proj2 (Z.leb_gt _ 0)) by lia. simpl. repeat split; [lia].
  - destruct (timeLeft t - 1 <=? 0) eqn:E0.
    + apply Z.leb_le in E0.
      rewrite (proj2 (Z.ltb_ge 0 _)) by lia. rewrite andb_false_r. simpl.
      destruct (clear_interval_ref_fields t) as (? & _ & ? & _).
      repeat split; [done | lia | by rewrite app_nil_r].
    + apply Z.leb_gt in E0.
      rewrite (proj2 (Z.leb_gt _ 5)) by lia. simpl.
      repeat split; [lia | by rewrite app_nil_r].
Qed.

(** Names the state after the conditional [sounds.tick()]. *)
Ltac name_ticked t t1 :=
  match goal with
  | |- context [if ?c then sounds_tick ?n t else t] =>
      set (t1 := if c then sounds_tick n t else t)
  end.

Lemma on_interval_inv t : timer_inv t → timer_inv (on_interval t).
Proof.
  intros Hinv. unfold on_interval. name_ticked t t1.
  assert (H1 : timer_inv t1) by (subst t1; case_match; exact Hinv).
  destruct (timeLeft t - 1 <=? 0); [|exact H1].
  destruct (clear_interval_ref_inv t1 H1) as [Href Hset].
  destruct (clear_interval_ref_fields t1) as (_ & _ & _ & Hnext).
  unfold timer_inv. simpl. rewrite Href, Hset, Hnext. split; [apply H1 | done].
Qed.

Lemma on_interval_expires t :
  timer_inv t → timeLeft t ≤ 1 →
  timeLeft (on_interval t) = 0 ∧ intervals (on_interval t) = ∅ ∧
  running (on_interval t) = false.
Proof.
  intros Hinv Hle. unfold on_interval. name_ticked t t1.
  assert (H1 : timer_inv t1) by (subst t1; case_match; exact Hinv).
  rewrite (proj2 (Z.leb_le _ 0)) by lia.
  destruct (clear_interval_ref_inv t1 H1) as [Href Hset].
  unfold running. simpl. by rewrite Href, Hset.
Qed.

Lemma on_interval_running t :
  running (on_interval t) = true → running t = true.
Proof.
  unfold on_interval. name_ticked t t1.
  assert (H1 : running t1 = running t) by (subst t1; by case_match).
  rewrite <- H1. clearbody t1.
  destruct (timeLeft t - 1 <=? 0); [|done].
  unfold running, clear_interval_ref.
  destruct (intervalRef t1) as [[|n]|] eqn:E; simpl; rewrite ?E; done.
Qed.

Lemma step_inv t ev t' :
  timer_inv t → idle_unless_active t → step t ev = Some t' →
  timer_inv t' ∧ idle_unless_active t'.
Proof.
  intros Hinv Hidle Hstep. destruct ev as [p|id]; simpl in Hstep.
  - destruct (decide (p = props t)) as [->|Hne].
    + by inversion Hstep; subst.
    + destruct (rerender_spec p t Hinv Hne) as (t2 & Hs & Hi & _ & Hp & _ & Hr & _).
      unfold step in Hs. rewrite decide_False in Hs by done.
      rewrite Hs in Hstep. inversion Hstep; subst t2.
      split; [done|]. unfold idle_unless_active. by rewrite Hr, Hp.
  - destruct (decide (id ∈ intervals t)); [|done]. inversion Hstep; subst t'.
    split; [by apply on_interval_inv|].
    unfold idle_unless_active. intros Hr.
    destruct (on_interval_spec t) as (-> & _). apply Hidle.
    by apply on_interval_running.
Qed.

Lemma mount_spec p :
  timer_inv (mount p) ∧ idle_unless_active (mount p) ∧
  timeLeft (mount p) = duration p ∧ props (mount p) = p ∧
  running (mount p) = active p.
Proof.
  unfold mount.
  match goal with |- context [effect p ?t0] => set (t := t0) end.
  assert (Hinv : timer_inv t) by (split; [simpl; lia | done]).
  destruct (effect_spec p t Hinv eq_refl) as (? & ? & Hp & _ & Hr & _).
  split; [done|]. split; [|done].
  unfold idle_unless_active. by rewrite Hr, Hp.
Qed.

Lemma run_inv evs : ∀ t t',
  timer_inv t → idle_unless_active t → run t evs = Some t' →
  timer_inv t' ∧ idle_unless_active t'.
Proof.
  induction evs as [|ev evs IH]; intros t t' Hinv Hidle Hrun; simpl in Hrun.
  - by inversion Hrun; subst.
  - destruct (step t ev) as [t1|] eqn:Hs; [|done]. simpl in Hrun.
    destruct (step_inv _ _ _ Hinv Hidle Hs). by eapply IH.
Qed.

Lemma step_in_range t ev t' :
  in_range t → nonneg_duration ev → step t ev = Some t' → in_range t'.
Proof.
  unfold in_range. intros Hr Hev Hstep. destruct ev as [p|id]; simpl in *.
  - destruct (decide (p = props t)) as [->|Hne]; inversion Hstep; subst t'; [done|].
    clear Hstep. unfold effect.
    assert (Hp : props (clear_interval_ref (cleanup (set_props p t))) = p).
    { destruct (clear_interval_ref_fields (cleanup (set_props p t))) as (-> & _).
      apply cleanup_set_props_fields. }
    destruct (negb (isActive p) || negb (has_player p)); simpl; rewrite Hp; lia.
  - destruct (decide (id ∈ intervals t)); [|done]. inversion Hstep; subst t'.
    destruct (on_interval_spec t) as (-> & -> & _). lia.
Qed.

Lemma run_in_range evs : ∀ t t',
  in_range t → Forall nonneg_duration evs → run t evs = Some t' → in_range t'.
Proof.
  induction evs as [|ev evs IH]; intros t t' Hr Hevs Hrun; simpl in Hrun.
  - by inversion Hrun; subst.
  - destruct (step t ev) as [t1|] eqn:Hs; [|done]. simpl in Hrun.
    apply Forall_cons in Hevs as [Hev Hevs].
    eapply IH; [|done|done]. by eapply step_in_range.
Qed.

Lemma reachable_inv p0 evs t :
  run (mount p0) evs = Some t → timer_inv t ∧ idle_unless_active t.
Proof.
  destruct (mount_spec p0) as (Hinv & Hidle & _). by apply run_inv.
Qed.

Lemma step_ticks t ev t' :
  step t ev = Some t' →
  ticks t' =
    ticks t ++
    match ev with
    | IntervalFired _ =>
        if decide (0 < timeLeft t - 1 ≤ 5) then [timeLeft t - 1] else []
    | Rendered _ => []
    end.
Proof.
  intros Hstep. destruct ev as [p|id]; simpl in Hstep.
  - rewrite app_nil_r.
    destruct (decide (p = props t)); inversion Hstep; subst t'; [done|].
    unfold effect.
    destruct (clear_interval_ref_fields (cleanup (set_props p t))) as (_ & _ & Ht & _).
    destruct (cleanup_set_props_fields p t) as [_ Hc].
    destruct (negb (isActive p) || negb (has_player p)); simpl; by rewrite Ht, Hc.
  - destruct (decide (id ∈ intervals t)); [|done]. inversion Hstep; subst t'.
    apply on_interval_spec.
Qed.

(** C3: along every run of the component in which the configured
    durations are not negative, [timeLeft] stays within [0, duration];
    a render in which the active flag or the player differs from the
    last one sets [timeLeft] to the full duration, leaves the clock
    running exactly when the flag is set and a player is present, and
    otherwise leaves no interval registered; an interval firing at
    [timeLeft <= 1] sets [timeLeft] to 0, never below, and clears the
    interval; with no interval registered [timeLeft] moves only at a
    render with changed props; the duration is 20 when not given. *)
Theorem turn_clock_contract (p0 : Props) (evs : list Event) (t : TurnTimer) :
  0 ≤ duration p0 → Forall nonneg_duration evs → run (mount p0) evs = Some t →
  0 ≤ timeLeft t ≤ duration (props t) ∧
  (∀ p, isActive p ≠ isActive (props t) ∨ currentPlayer p ≠ currentPlayer (props t) →
     ∃ t', step t (Rendered p) = Some t' ∧ timeLeft t' = duration p ∧
       running t' = active p ∧
       (active p = false → intervalRef t' = None ∧ intervals t' = ∅)) ∧
  (∀ id t', step t (IntervalFired id) = Some t' →
     timeLeft t' = Z.max 0 (timeLeft t - 1) ∧
     (timeLeft t ≤ 1 →
        timeLeft t' = 0 ∧ intervals t' = ∅ ∧ running t' = false)) ∧
  (intervals t = ∅ → ∀ ev t', step t ev = Some t' → timeLeft t' ≠ timeLeft t →
     ∃ p, ev = Rendered p ∧ p ≠ props t) ∧
  (∀ a c, duration (make_props a c None) = 20).
Proof.
  intros H0 Hevs Hrun.
  destruct (reachable_inv _ _ _ Hrun) as [Hinv Hidle].
  assert (Hrange : in_range t).
  { eapply run_in_range; [|exact Hevs|exact Hrun].
    destruct (mount_spec p0) as (_ & _ & Ht & Hp & _).
    unfold in_range. rewrite Ht, Hp. lia. }
  split; [exact Hrange|]. split; [|split; [|split]].
  - intros p Hchg.
    assert (Hne : p ≠ props t) by (intros ->; by destruct Hchg).
    destruct (rerender_spec p t Hinv Hne) as (t' & Hs & _ & Ht & _ & _ & Hr & Hoff).
    by exists t'.
  - intros id t' Hs. simpl in Hs.
    destruct (decide (id ∈ intervals t)); [|done]. inversion Hs; subst t'.
    split; [apply on_interval_spec | by apply on_interval_expires].
  - intros Hnone ev t' Hs Hmoved. destruct ev as [p|id]; simpl in Hs.
    + exists p. split; [done|]. intros ->.
      rewrite decide_True in Hs by done. by inversion Hs; subst.
    + rewrite Hnone in Hs. rewrite decide_False in Hs by apply not_elem_of_empty.
      done.
  - done.
Qed.

Lemma turn_clock_contract_witness :
  ∃ t, run (mount (make_props true (Some "Ann") None))
         [IntervalFired 1; Rendered (make_props true (Some "Bob") None);
          IntervalFired 2; IntervalFired 2] = Some t ∧
       0 ≤ timeLeft t ≤ duration (props t).
Proof.
  eexists. split; [vm_compute; reflexivity|].
  eapply (turn_clock_contract (make_props true (Some "Ann") None)
            [IntervalFired 1; Rendered (make_props true (Some "Bob") None);
             IntervalFired 2; IntervalFired 2]).
  - simpl. lia.
  - repeat constructor; simpl; lia.
  - vm_compute; reflexivity.
Defined.

(** C4: an interval firing is one unit decrement (down to 0 at most),
    and it calls [sounds.tick()] once when the new remaining time is
    in (0, 5] and not at all otherwise; a render calls it never. *)
Theorem low_time_tick (t : TurnTimer) (ev : Event) (t' : TurnTimer) :
  step t ev = Some t' →
  match ev with
  | IntervalFired _ =>
      timeLeft t' = Z.max 0 (timeLeft t - 1) ∧
      ticks t' =
        ticks t ++ (if decide (0 < timeLeft t - 1 ≤ 5) then [timeLeft t - 1] else [])
  | Rendered _ => ticks t' = ticks t
  end.
Proof.
  intros Hs. pose proof (step_ticks _ _ _ Hs) as Ht.
  destruct ev as [p|id].
  - by rewrite app_nil_r in Ht.
  - split; [|exact Ht]. simpl in Hs.
    destruct (decide (id ∈ intervals t)); [|done]. inversion Hs; subst t'.
    apply on_interval_spec.
Qed.

Lemma low_time_tick_witness :
  ∃ t t', run (mount (make_props true (Some "Ann") (Some 6))) [] = Some t ∧
          step t (IntervalFired 1) = Some t' ∧
          timeLeft t' = 5 ∧ ticks t' = [5].
Proof.
  eexists. eexists. split; [reflexivity|]. split; [vm_compute; reflexivity|].
  pose proof (low_time_tick (mount (make_props true (Some "Ann") (Some 6)))
                (IntervalFired 1) _ ltac:(vm_compute; reflexivity)) as [H1 H2].
  split; [exact H1 | exact H2].
Defined.

(** The whole countdown from the default duration: twenty firings, of
    which the last five before zero sound the cue; then the interval is
    gone and cannot fire again. *)
Example countdown_from_20 :
  ∃ t, run (mount (make_props true (Some "Ann") None))
         (replicate 20 (IntervalFired 1)) = Some t ∧
       timeLeft t = 0 ∧ ticks t = [5; 4; 3; 2; 1] ∧ running t = false ∧
       step t (IntervalFired 1) = None.
Proof. eexists. split; [vm_compute; reflexivity|]. by vm_compute. Qed.

End TurnClock.

(** ** Active player derivation *)

Section ActivePlayer.
Import Timer.

Lemma currentPlayer_out_of_range (gs : App.GameState) :
  App.turnIdx gs < 0 ∨ Z.of_nat (length (App.players gs)) ≤ App.turnIdx gs →
  App.currentPlayer (Some gs) = None.
Proof.
  intros [Hneg|Hbig]; unfold App.currentPlayer.
  - by rewrite (proj2 (Z.leb_gt 0 _)) by lia.
  - rewrite (proj2 (Z.leb_le 0 _)) by lia. apply lookup_ge_None. lia.
Qed.

Lemma inactive_props_idle p0 evs t t' p :
  active p = false → run (mount p0) evs = Some t → step t (Rendered p) = Some t' →
  running t' = false ∧ view t' = None.
Proof.
  intros Hoff Hrun Hs. destruct (reachable_inv _ _ _ Hrun) as [Hinv Hidle].
  assert (Hview : ∀ u, props u = p → view u = None).
  { intros u Hu. unfold view. rewrite Hu. unfold active in Hoff.
    by destruct (isActive p), (has_player p). }
  destruct (decide (p = props t)) as [Heq|Hne].
  - simpl in Hs. rewrite decide_True in Hs by done. inversion Hs; subst t'.
    split; [|by apply Hview].
    destruct (running t) eqn:Er; [|done].
    specialize (Hidle Er). congruence.
  - destruct (rerender_spec p t Hinv Hne) as (t2 & Hs2 & _ & _ & Hp & _ & Hr & _).
    rewrite Hs2 in Hs. inversion Hs; subst t2.
    split; [by rewrite Hr | by apply Hview].
Qed.

(** C10: for a snapshot whose [turnIdx] is negative or not below the
    number of players, the derived current player is absent (the index
    read yields nothing, it does not fail), it is nobody's turn, and the
    props handed to the turn clock carry no player: whatever the clock
    was doing before, after the render it is not running and renders
    nothing; the same holds when the clock is first mounted so. *)
Theorem invalid_turn_index_is_inactive (gs : App.GameState) (me : string)
    (p0 : Props) (evs : list Event) (t t' : TurnTimer) :
  App.turnIdx gs < 0 ∨ Z.of_nat (length (App.players gs)) ≤ App.turnIdx gs →
  run (mount p0) evs = Some t →
  step t (Rendered (App.timer_props (Some gs))) = Some t' →
  App.currentPlayer (Some gs) = None ∧
  App.isMyTurn (Some gs) me = false ∧
  currentPlayer (App.timer_props (Some gs)) = None ∧
  running t' = false ∧ view t' = None ∧
  running (mount (App.timer_props (Some gs))) = false ∧
  view (mount (App.timer_props (Some gs))) = None.
Proof.
  intros Hidx Hrun Hs.
  pose proof (currentPlayer_out_of_range gs Hidx) as Hcur.
  assert (Hnone : currentPlayer (App.timer_props (Some gs)) = None).
  { unfold App.timer_props, make_props. cbn [currentPlayer]. by rewrite Hcur. }
  assert (Hoff : active (App.timer_props (Some gs)) = false).
  { unfold active, has_player. rewrite Hnone. apply andb_false_r. }
  split; [exact Hcur|]. split.
  { unfold App.isMyTurn. rewrite Hcur. apply andb_false_r. }
  split; [exact Hnone|].
  destruct (inactive_props_idle _ _ _ _ _ Hoff Hrun Hs) as [Hr Hv].
  split; [exact Hr|]. split; [exact Hv|].
  destruct (mount_spec (App.timer_props (Some gs))) as (_ & _ & _ & Hp & Hrm).
  split; [by rewrite Hrm|].
  unfold view. rewrite Hp. unfold active in Hoff.
  by destruct (isActive _), (has_player _).
Qed.

Lemma invalid_turn_index_is_inactive_witness :
  let gs := App.snapshot [App.player_named "Ann"; App.player_named "Bob"] App.PLAYER 2 in
  let p0 := App.timer_props
              (Some (App.snapshot [App.player_named "Ann"; App.player_named "Bob"]
                       App.PLAYER 1)) in
  running (mount p0) = true ∧
  ∃ t', step (mount p0) (Rendered (App.timer_props (Some gs))) = Some t' ∧
        running t' = false ∧ view t' = None ∧ App.currentPlayer (Some gs) = None.
Proof.
  intros gs p0. split; [vm_compute; reflexivity|].
  eexists. split; [vm_compute; reflexivity|].
  destruct (invalid_turn_index_is_inactive gs "Ann" p0 [] (mount p0) _
              ltac:(right; vm_compute; congruence) eq_refl
              ltac:(vm_compute; reflexivity))
    as (Hc & _ & _ & Hr & Hv & _).
  split; [exact Hr|]. split; [exact Hv | exact Hc].
Defined.

End ActivePlayer.

(** ** Connection manager and state synchronizer *)

Section ConnectionManager.
Import Ws.

Variable JSON_parse : string → completion json.
Variable JSON_stringify : json → string.

Lemma onmessage_cases raw h :
  match JSON_parse raw with
  | Throw _ => onmessage JSON_parse raw h = Ok (console_log "Parse error:" h)
  | Ok data =>
      match get_prop data "type" with
      | Throw _ => onmessage JSON_parse raw h = Ok (console_log "Parse error:" h)
      | Ok ty =>
          if is_string ty "state"
          then ∃ st, get_prop data "state" = Ok st ∧
                     onmessage JSON_parse raw h = Ok (setState st h)
          else onmessage JSON_parse raw h = Ok h
      end
  end.
Proof.
  unfold onmessage. destruct (JSON_parse raw) as [data|e]; simpl; [|done].
  destruct data as [ | b | n | s | l | fields]; simpl; try done.
  destruct (is_string _ "state"); simpl; [|done]. by eexists.
Qed.

Lemma is_string_spec v s : is_string v s = true ↔ v = Val (JStr s).
Proof.
  destruct v as [|[ | | |s'| | ]]; simpl; try (split; [done | congruence]).
  rewrite bool_decide_eq_true. split; congruence.
Qed.

(** C2: the message handler always returns normally.  When the raw
    text fails to decode the error is logged and nothing else changes;
    when it decodes to a frame whose [type] is not the string [state]
    (or has none) the published snapshot is what it was; only a frame
    whose [type] is [state] installs a snapshot, the frame's [state]. *)
Theorem onmessage_snapshot (h : Hook) (raw : string) :
  ∃ h', onmessage JSON_parse raw h = Ok h' ∧
    (∀ e, JSON_parse raw = Throw e →
       h' = console_log "Parse error:" h ∧ state h' = state h) ∧
    (∀ data, JSON_parse raw = Ok data →
       get_prop data "type" ≠ Ok (Val (JStr "state")) → state h' = state h) ∧
    (∀ data, JSON_parse raw = Ok data →
       get_prop data "type" = Ok (Val (JStr "state")) →
       ∃ st, get_prop data "state" = Ok st ∧ h' = setState st h).
Proof.
  pose proof (onmessage_cases raw h) as Hc.
  destruct (JSON_parse raw) as [data|e] eqn:Ep.
  - destruct (get_prop data "type") as [ty|e] eqn:Et.
    + destruct (is_string ty "state") eqn:Es.
      * destruct Hc as (st & Hst & Hm). exists (setState st h).
        apply is_string_spec in Es as ->.
        split; [done|]. split; [done|]. split.
        -- intros d [= <-] Hne. by rewrite Et in Hne.
        -- intros d [= <-] _. by exists st.
      * exists h. split; [done|]. split; [done|]. split; [done|].
        intros d [= <-] Heq. rewrite Et in Heq. injection Heq as ->.
        by rewrite (proj2 (is_string_spec _ _) eq_refl) in Es.
    + eexists. split; [exact Hc|]. split; [done|]. split; [done|].
      intros d [= <-] Heq. by rewrite Et in Heq.
  - eexists. split; [exact Hc|]. split; [done|]. split; done.
Qed.

(** C5: with no socket in the ref, or one that is not open, [send]
    returns normally and the hook, its sockets and their outboxes
    included, is exactly what it was; with an open socket [send]
    appends the serialized envelope to that socket's outbox and changes
    nothing else. *)
Theorem send_contract (h : Hook) (type : string) (payload : jsval) :
  (wsRef h = None ∨
   (∃ ws s, wsRef h = Some ws ∧ sockets h !! ws = Some s ∧ readyState s ≠ OPEN) →
   send JSON_stringify type payload h = Ok h) ∧
  (∀ ws s, wsRef h = Some ws → sockets h !! ws = Some s → readyState s = OPEN →
     send JSON_stringify type payload h =
       Ok (set_sockets
             (<[ws := {| ws_url := ws_url s; readyState := OPEN;
                         outbox := outbox s ++ [JSON_stringify (envelope type payload)] |}]>
                (sockets h)) h)).
Proof.
  split.
  - intros [Hnone|(ws & s & Hws & Hs & Hst)]; unfold send, ws_open.
    + by rewrite Hnone.
    + rewrite Hws, Hs. by rewrite bool_decide_eq_false_2.
  - intros ws s Hws Hs Hst. unfold send, ws_open, ws_send.
    rewrite Hws, Hs, Hst. by rewrite bool_decide_eq_true_2.
Qed.

End ConnectionManager.

Section Frames.
Import Ws.

Example lobby_frame_text :
  sample_stringify lobby_frame =
    "{" +:+ quoted "type" +:+ ":" +:+ quoted "state" +:+ "," +:+ quoted "state" +:+
    ":{" +:+ quoted "phase" +:+ ":" +:+ quoted "LOBBY" +:+ "}}".
Proof. reflexivity. Qed.

Lemma onmessage_snapshot_witness :
  let h := mount "ws://localhost:8080" in
  (∃ h', onmessage sample_parse "{oops" h = Ok h' ∧ state h' = Val JNull) ∧
  (∃ h', onmessage sample_parse "[1]" h = Ok h' ∧ state h' = Val JNull) ∧
  (∃ h', onmessage sample_parse (sample_stringify lobby_frame) h = Ok h' ∧
         state h' = Val (JObj [("phase", JStr "LOBBY")])).
Proof.
  intros h. repeat split.
  - destruct (onmessage_snapshot sample_parse h "{oops") as (h' & Hm & Hfail & _).
    exists h'. split; [exact Hm|].
    destruct (Hfail SyntaxError eq_refl) as [_ Hs]. rewrite Hs. reflexivity.
  - destruct (onmessage_snapshot sample_parse h "[1]") as (h' & Hm & _ & Hother & _).
    exists h'. split; [exact Hm|].
    rewrite (Hother (JArr [JNum 1]) eq_refl ltac:(simpl; congruence)). reflexivity.
  - destruct (onmessage_snapshot sample_parse h (sample_stringify lobby_frame))
      as (h' & Hm & _ & _ & Hstate).
    exists h'. split; [exact Hm|].
    destruct (Hstate lobby_frame eq_refl eq_refl) as (st & Hst & ->).
    simpl in Hst. injection Hst as <-. reflexivity.
Defined.

Lemma send_contract_witness :
  let h := mount "ws://localhost:8080" in
  send sample_stringify "hit" Undefined h = Ok h ∧
  ∃ h1 h2, step sample_parse h (SocketOpened 0) = Some h1 ∧
           send sample_stringify "bet" (Val (JObj [("value", JNum 50)])) h1 = Ok h2 ∧
           outbox <$> sockets h2 !! 0%nat =
             Some ["{" +:+ quoted "type" +:+ ":" +:+ quoted "bet" +:+ "," +:+
                   quoted "payload" +:+ ":{" +:+ quoted "value" +:+ ":50}}"].
Proof.
  intros h. split.
  - apply (send_contract sample_stringify h "hit" Undefined). right.
    exists 0%nat, {| ws_url := "ws://localhost:8080"; readyState := CONNECTING;
                     outbox := [] |}.
    split; [reflexivity | split; [vm_compute; reflexivity | simpl; congruence]].
  - eexists. eexists. split; [vm_compute; reflexivity|]. split.
    + eapply (send_contract sample_stringify); [reflexivity | vm_compute; reflexivity | reflexivity].
    + vm_compute. reflexivity.
Defined.

End Frames.

(** ** Reconnect policy *)

Section Reconnect.
Import Ws.

Variable JSON_parse : string → completion json.

Lemma truthy_handle_Some r id : truthy_handle r = Some id → r = Some id ∧ (0 < id)%nat.
Proof. destruct r as [[|n]|]; simpl; intros [= <-]; split; [done | lia]. Qed.

Lemma truthy_handle_pos id : (0 < id)%nat → truthy_handle (Some id) = Some id.
Proof. destruct id; [lia | done]. Qed.

Lemma connect_frame u h :
  timers (connect u h) = timers h ∧ next_timer (connect u h) = next_timer h ∧
  reconnectTimeoutRef (connect u h) = reconnectTimeoutRef h ∧
  clock (connect u h) = clock h.
Proof. unfold connect. by destruct (ws_open h). Qed.

Lemma onopen_frame h :
  sockets (onopen h) = sockets h ∧ wsRef (onopen h) = wsRef h ∧
  next_timer (onopen h) = next_timer h ∧ clock (onopen h) = clock h ∧
  connected (onopen h) = true ∧ reconnecting (onopen h) = false ∧
  timers (onopen h) =
    match truthy_handle (reconnectTimeoutRef h) with
    | Some id => delete id (timers h)
    | None => timers h
    end ∧
  reconnectTimeoutRef (onopen h) =
    match truthy_handle (reconnectTimeoutRef h) with
    | Some _ => None
    | None => reconnectTimeoutRef h
    end.
Proof. unfold onopen. simpl. by destruct (truthy_handle (reconnectTimeoutRef h)). Qed.

Lemma effect_cleanup_frame h :
  next_timer (effect_cleanup h) = next_timer h ∧
  reconnectTimeoutRef (effect_cleanup h) = reconnectTimeoutRef h ∧
  wsRef (effect_cleanup h) = wsRef h ∧
  timers (effect_cleanup h) =
    match truthy_handle (reconnectTimeoutRef h) with
    | Some id => delete id (timers h)
    | None => timers h
    end.
Proof.
  unfold effect_cleanup, ws_close.
  destruct (truthy_handle (reconnectTimeoutRef h)); cbn [wsRef clearTimeout set_timers sockets];
    (destruct (wsRef h) as [ws|] eqn:Ew; [|by simpl; rewrite ?Ew]);
    (destruct (sockets h !! ws) as [s|]; [|by simpl; rewrite ?Ew]);
    destruct (readyState s); by simpl; rewrite ?Ew.
Qed.

Lemma set_readyState_frame ws r h :
  timers (set_readyState ws r h) = timers h ∧
  next_timer (set_readyState ws r h) = next_timer h ∧
  reconnectTimeoutRef (set_readyState ws r h) = reconnectTimeoutRef h ∧
  wsRef (set_readyState ws r h) = wsRef h ∧
  clock (set_readyState ws r h) = clock h.
Proof. unfold set_readyState. by destruct (sockets h !! ws). Qed.

Lemma message_frame raw h :
  let h' := match onmessage JSON_parse raw h with Ok h' => h' | Throw _ => h end in
  timers h' = timers h ∧ next_timer h' = next_timer h ∧
  reconnectTimeoutRef h' = reconnectTimeoutRef h ∧
  sockets h' = sockets h ∧ wsRef h' = wsRef h.
Proof.
  pose proof (onmessage_cases JSON_parse raw h) as Hc.
  destruct (JSON_parse raw) as [data|e]; [|by rewrite Hc].
  destruct (get_prop data "type") as [ty|e]; [|by rewrite Hc].
  destruct (is_string ty "state"); [|by rewrite Hc].
  destruct Hc as (st & _ & ->). done.
Qed.

Lemma handles_fresh_delete h h' id :
  handles_fresh h → timers h' = delete id (timers h) →
  next_timer h' = next_timer h →
  (reconnectTimeoutRef h' = reconnectTimeoutRef h ∨ reconnectTimeoutRef h' = None) →
  handles_fresh h'.
Proof.
  intros (Hpos & Hlt & Href) Ht Hn Hr. unfold handles_fresh.
  rewrite Ht, Hn. split; [done|]. split.
  - intros i [t Hi]. apply Hlt. apply lookup_delete_Some in Hi as [_ Hi]. by exists t.
  - intros i Hi. destruct Hr as [Hr|Hr]; rewrite Hr in Hi; [by apply Href|done].
Qed.

Lemma handles_fresh_same h h' :
  handles_fresh h → timers h' = timers h → next_timer h' = next_timer h →
  reconnectTimeoutRef h' = reconnectTimeoutRef h → handles_fresh h'.
Proof. unfold handles_fresh. by intros H -> -> ->. Qed.

Lemma step_handles_fresh h ev h' :
  handles_fresh h → step JSON_parse h ev = Some h' → handles_fresh h'.
Proof.
  intros Hf Hs. destruct ev as [ws|ws|ws|ws raw|id|ms|u|]; simpl in Hs.
  - destruct (sockets h !! ws) as [s|] eqn:Es; [simpl in Hs|done].
    destruct (decide (readyState s = CONNECTING)); [|done]. inversion Hs; subst h'.
    destruct (onopen_frame (set_readyState ws OPEN h)) as (_ & _ & Hn & _ & _ & _ & Ht & Hr).
    destruct (set_readyState_frame ws OPEN h) as (Ht0 & Hn0 & Hr0 & _).
    assert (Hf0 : handles_fresh (set_readyState ws OPEN h))
      by (by apply (handles_fresh_same h)).
    destruct (truthy_handle (reconnectTimeoutRef (set_readyState ws OPEN h))) as [id|] eqn:Et.
    + eapply handles_fresh_delete; [exact Hf0|exact Ht|exact Hn|by right].
    + by apply (handles_fresh_same (set_readyState ws OPEN h)).
  - destruct (sockets h !! ws) as [s|] eqn:Es; [simpl in Hs|done].
    destruct (decide (readyState s = CLOSED)); [done|]. inversion Hs; subst h'.
    destruct (set_readyState_frame ws CLOSED h) as (Ht0 & Hn0 & Hr0 & _).
    destruct Hf as (Hpos & Hlt & Href).
    unfold handles_fresh, onclose. simpl. rewrite Ht0, Hn0.
    split; [lia|]. split.
    + intros i [t Hi]. apply lookup_insert_Some in Hi as [[<- _]|[_ Hi]]; [lia|].
      assert (i < next_timer h)%nat by (apply Hlt; by exists t). lia.
    + intros i [= <-]. done.
  - destruct (sockets h !! ws) as [s|]; [simpl in Hs|done].
    destruct (decide (readyState s = CLOSED)); [done|]. by inversion Hs; subst h'.
  - destruct (sockets h !! ws) as [s|]; [simpl in Hs|done].
    destruct (decide (readyState s = OPEN)); [|done]. inversion Hs; subst h'.
    destruct (message_frame raw h) as (? & ? & ? & _). by apply (handles_fresh_same h).
  - destruct (timers h !! id) as [t|]; [simpl in Hs|done].
    destruct (decide (fires_at t ≤ clock h)); [|done]. inversion Hs; subst h'.
    unfold reconnect_callback.
    destruct (connect_frame (reconnect_url t) (console_log "Reconnecting..." (clearTimeout id h)))
      as (Ht & Hn & Hr & _).
    eapply (handles_fresh_delete h _ id); [done|by rewrite Ht|by rewrite Hn|left; by rewrite Hr].
  - destruct (decide (0 ≤ ms)); [|done]. by inversion Hs; subst h'.
  - inversion Hs; subst h'.
    destruct (connect_frame u (effect_cleanup h)) as (Ht & Hn & Hr & _).
    destruct (effect_cleanup_frame h) as (Hn1 & Hr1 & _ & Ht1).
    destruct (truthy_handle (reconnectTimeoutRef h)) as [id|].
    + eapply (handles_fresh_delete h _ id); [done|by rewrite Ht|by rewrite Hn, Hn1|left; by rewrite Hr].
    + apply (handles_fresh_same h); [done|by rewrite Ht|by rewrite Hn|by rewrite Hr].
  - inversion Hs; subst h'.
    destruct (effect_cleanup_frame h) as (Hn1 & Hr1 & _ & Ht1).
    destruct (truthy_handle (reconnectTimeoutRef h)) as [id|].
    + eapply (handles_fresh_delete h _ id); [done|done|done|by left].
    + by apply (handles_fresh_same h).
Qed.

Lemma mount_fresh u : handles_fresh (mount u) ∧ single_flight (mount u).
Proof.
  split.
  - unfold handles_fresh, mount, connect. simpl. split; [lia|]. split; [|done].
    intros id [t Ht]. by rewrite lookup_empty in Ht.
  - left. unfold mount, connect. simpl. split; [done|].
    intros ws s Hs _. apply lookup_insert_Some in Hs as [[<- _]|[_ Hs]]; [done|].
    by rewrite lookup_empty in Hs.
Qed.

Lemma run_handles_fresh evs : ∀ h h',
  handles_fresh h → run JSON_parse h evs = Some h' → handles_fresh h'.
Proof.
  induction evs as [|ev evs IH]; intros h h' Hf Hrun; simpl in Hrun.
  - by inversion Hrun; subst.
  - destruct (step JSON_parse h ev) as [h1|] eqn:Hs; [|done]. simpl in Hrun.
    eapply IH; [|done]. by eapply step_handles_fresh.
Qed.

Lemma all_closed_not_open h :
  (∀ ws s, sockets h !! ws = Some s → readyState s = CLOSED) → ws_open h = false.
Proof.
  intros Hall. unfold ws_open. destruct (wsRef h) as [ws|]; [|done].
  destruct (sockets h !! ws) as [s|] eqn:Es; [|done].
  rewrite (Hall _ _ Es). by apply bool_decide_eq_false_2.
Qed.

Lemma single_flight_same h h' :
  single_flight h → timers h' = timers h → sockets h' = sockets h →
  wsRef h' = wsRef h → reconnectTimeoutRef h' = reconnectTimeoutRef h →
  single_flight h'.
Proof. unfold single_flight. by intros H -> -> -> ->. Qed.

(** When a socket raises an event while it is not closed, no timeout is
    pending and the socket is the one in [wsRef]. *)
Lemma single_flight_live h ws s :
  single_flight h → sockets h !! ws = Some s → readyState s ≠ CLOSED →
  timers h = ∅ ∧ wsRef h = Some ws ∧
  ∀ ws' s', sockets h !! ws' = Some s' → readyState s' ≠ CLOSED → ws' = ws.
Proof.
  intros [[Ht Hlive]|(id & t & _ & _ & Hall)] Hs Hne.
  - pose proof (Hlive _ _ Hs Hne) as Hw. repeat split; [done..|].
    intros ws' s' Hs' Hne'. pose proof (Hlive _ _ Hs' Hne'). congruence.
  - by rewrite (Hall _ _ Hs) in Hne.
Qed.

Lemma step_single_flight h ev h' :
  handles_fresh h → single_flight h → is_rerun ev = false →
  step JSON_parse h ev = Some h' → single_flight h'.
Proof.
  intros Hf Hsf Hev Hs.
  destruct ev as [ws|ws|ws|ws raw|id|ms|u|]; simpl in Hs; [..|done|].
  - (* open *)
    destruct (sockets h !! ws) as [s|] eqn:Es; [simpl in Hs|done].
    destruct (decide (readyState s = CONNECTING)) as [Hc|]; [|done].
    inversion Hs; subst h'.
    destruct (single_flight_live h ws s Hsf Es ltac:(congruence)) as (Ht & Hw & Honly).
    destruct (onopen_frame (set_readyState ws OPEN h)) as (Hso & Hwo & _ & _ & _ & _ & Hto & _).
    destruct (set_readyState_frame ws OPEN h) as (Ht0 & _ & _ & Hw0 & _).
    left. split.
    + rewrite Hto, Ht0, Ht. destruct (truthy_handle _); [apply delete_empty|done].
    + rewrite Hso, Hwo, Hw0, Hw. unfold set_readyState. rewrite Es. simpl.
      intros ws' s' Hs' Hne. f_equal.
      apply lookup_insert_Some in Hs' as [[<- _]|[_ Hs']]; [done|].
      symmetry. by eapply Honly.
  - (* close *)
    destruct (sockets h !! ws) as [s|] eqn:Es; [simpl in Hs|done].
    destruct (decide (readyState s = CLOSED)) as [|Hne]; [done|].
    inversion Hs; subst h'.
    destruct (single_flight_live h ws s Hsf Es Hne) as (Ht & Hw & Honly).
    destruct (set_readyState_frame ws CLOSED h) as (Ht0 & Hn0 & _ & _ & Hc0).
    right. eexists (next_timer h), _. unfold onclose. simpl.
    rewrite Ht0, Hn0, Ht, insert_empty. split; [done|]. split; [done|].
    unfold set_readyState. rewrite Es. simpl.
    intros ws' s' Hs'. apply lookup_insert_Some in Hs' as [[_ <-]|[Hneq Hs']]; [done|].
    destruct (decide (readyState s' = CLOSED)) as [|Hlive]; [done|].
    by pose proof (Honly _ _ Hs' Hlive).
  - (* error *)
    destruct (sockets h !! ws) as [s|]; [simpl in Hs|done].
    destruct (decide (readyState s = CLOSED)); [done|]. by inversion Hs; subst h'.
  - (* message *)
    destruct (sockets h !! ws) as [s|]; [simpl in Hs|done].
    destruct (decide (readyState s = OPEN)); [|done]. inversion Hs; subst h'.
    destruct (message_frame raw h) as (? & _ & ? & ? & ?).
    by apply (single_flight_same h).
  - (* timeout *)
    destruct (timers h !! id) as [t|] eqn:Et; [simpl in Hs|done].
    destruct (decide (fires_at t ≤ clock h)); [|done]. inversion Hs; subst h'.
    destruct Hsf as [[Ht _]|(id0 & t0 & Ht & Hr & Hall)].
    { by rewrite Ht, lookup_empty in Et. }
    rewrite Ht in Et. apply lookup_singleton_Some in Et as [-> ->].
    unfold reconnect_callback, connect.
    rewrite all_closed_not_open by done.
    left. simpl. rewrite Ht, delete_singleton_eq. split; [done|].
    intros ws' s' Hs' Hne. f_equal.
    apply lookup_insert_Some in Hs' as [[<- _]|[_ Hs']]; [done|].
    by rewrite (Hall _ _ Hs') in Hne.
  - (* time passes *)
    destruct (decide (0 ≤ ms)); [|done]. by inversion Hs; subst h'.
  - (* unmount *)
    inversion Hs; subst h'.
    destruct (effect_cleanup_frame h) as (_ & _ & Hw & Ht).
    left. split.
    + rewrite Ht. destruct Hsf as [[Ht0 _]|(id0 & t0 & Ht0 & Hr & _)].
      * rewrite Ht0. destruct (truthy_handle _); [apply delete_empty|done].
      * destruct Hf as (_ & _ & Hpos). rewrite Hr, truthy_handle_pos by by apply Hpos.
        rewrite Ht0. apply delete_singleton_eq.
    + rewrite Hw. intros ws' s' Hs' Hne.
      assert (Hold : ∃ s0, sockets h !! ws' = Some s0 ∧ readyState s0 ≠ CLOSED).
      { revert Hs'. unfold effect_cleanup, ws_close.
        set (h1 := match truthy_handle _ with Some i => clearTimeout i h | None => h end).
        assert (Hso : sockets h1 = sockets h) by (subst h1; by destruct (truthy_handle _)).
        assert (Hwo : wsRef h1 = wsRef h) by (subst h1; by destruct (truthy_handle _)).
        rewrite Hwo. destruct (wsRef h) as [w|]; [|rewrite Hso; by eauto].
        rewrite Hso. destruct (sockets h !! w) as [sw|] eqn:Ew; [|rewrite Hso; by eauto].
        destruct (readyState sw) eqn:Er; simpl; rewrite ?Hso; eauto.
        all: intros Hs'; apply lookup_insert_Some in Hs' as [[<- _]|[_ Hs']]; eauto.
        all: exists sw; split; [done | congruence]. }
      destruct Hold as (s0 & Hs0 & Hne0).
      by destruct (single_flight_live h ws' s0 Hsf Hs0 Hne0) as (_ & ? & _).
Qed.

Lemma run_single_flight evs : ∀ h h',
  handles_fresh h → single_flight h → forallb (λ ev, negb (is_rerun ev)) evs = true →
  run JSON_parse h evs = Some h' → single_flight h'.
Proof.
  induction evs as [|ev evs IH]; intros h h' Hf Hsf Hevs Hrun; simpl in *.
  - by inversion Hrun; subst.
  - destruct (step JSON_parse h ev) as [h1|] eqn:Hs; [|done]. simpl in Hrun.
    apply andb_true_iff in Hevs as [Hev Hevs]. apply negb_true_iff in Hev.
    eapply (IH h1); [by eapply step_handles_fresh| |done|done].
    by eapply step_single_flight.
Qed.

Lemma single_flight_size h : single_flight h → (size (timers h) ≤ 1)%nat.
Proof.
  intros [[-> _]|(id & t & -> & _)].
  - rewrite map_size_empty. lia.
  - by rewrite map_size_singleton.
Qed.

(** The reconnect policy as the code has it: in every state the hook
    reaches, a close
    event registers exactly one new timeout, due 2000 ms later, and puts
    its handle in [reconnectTimeoutRef]; an open event marks the hook
    connected and cancels the timeout whose handle the ref holds.  The
    close handler does not look at the ref before it registers.  As long
    as the effect has not been re-run, a socket closes only while no
    timeout is pending, so at most one is ever pending, the close event
    leaves exactly one, and an open event leaves none. *)
Theorem reconnect_policy (url : string) (evs : list Event) (h : Hook) :
  run JSON_parse (mount url) evs = Some h →
  (∀ ws h', step JSON_parse h (SocketClosed ws) = Some h' →
     timers h !! next_timer h = None ∧
     size (timers h') = S (size (timers h)) ∧
     connected h' = false ∧ reconnecting h' = true ∧
     reconnectTimeoutRef h' = Some (next_timer h) ∧
     ∃ u, timers h' =
            <[next_timer h := {| fires_at := clock h + 2000; reconnect_url := u |}]>
              (timers h)) ∧
  (∀ ws h', step JSON_parse h (SocketOpened ws) = Some h' →
     connected h' = true ∧ reconnecting h' = false ∧
     reconnectTimeoutRef h' = None ∧
     timers h' =
       match reconnectTimeoutRef h with
       | Some id => delete id (timers h)
       | None => timers h
       end) ∧
  (forallb (λ ev, negb (is_rerun ev)) evs = true →
     (size (timers h) ≤ 1)%nat ∧
     (∀ ws h', step JSON_parse h (SocketClosed ws) = Some h' →
        timers h = ∅ ∧ size (timers h') = 1%nat) ∧
     (∀ ws h', step JSON_parse h (SocketOpened ws) = Some h' → timers h' = ∅)).
Proof.
  intros Hrun. destruct (mount_fresh url) as [Hf0 Hsf0].
  pose proof (run_handles_fresh _ _ _ Hf0 Hrun) as Hf.
  assert (Hnew : timers h !! next_timer h = None).
  { destruct (timers h !! next_timer h) eqn:E; [|done].
    destruct Hf as (_ & Hlt & _). specialize (Hlt (next_timer h) ltac:(by eexists)). lia. }
  assert (Hclose : ∀ ws h', step JSON_parse h (SocketClosed ws) = Some h' →
     size (timers h') = S (size (timers h)) ∧
     connected h' = false ∧ reconnecting h' = true ∧
     reconnectTimeoutRef h' = Some (next_timer h) ∧
     ∃ u, timers h' =
            <[next_timer h := {| fires_at := clock h + 2000; reconnect_url := u |}]>
              (timers h)).
  { intros ws h' Hs. simpl in Hs.
    destruct (sockets h !! ws) as [s|] eqn:Es; [simpl in Hs|done].
    destruct (decide (readyState s = CLOSED)); [done|]. inversion Hs; subst h'.
    destruct (set_readyState_frame ws CLOSED h) as (Ht0 & Hn0 & _ & _ & Hc0).
    unfold onclose. simpl. rewrite Ht0, Hn0, Hc0.
    split; [by apply map_size_insert_None|]. repeat split. by eexists. }
  assert (Hopen : ∀ ws h', step JSON_parse h (SocketOpened ws) = Some h' →
     connected h' = true ∧ reconnecting h' = false ∧
     reconnectTimeoutRef h' = None ∧
     timers h' =
       match reconnectTimeoutRef h with
       | Some id => delete id (timers h)
       | None => timers h
       end).
  { intros ws h' Hs. simpl in Hs.
    destruct (sockets h !! ws) as [s|] eqn:Es; [simpl in Hs|done].
    destruct (decide (readyState s = CONNECTING)); [|done]. inversion Hs; subst h'.
    destruct (onopen_frame (set_readyState ws OPEN h)) as (_ & _ & _ & _ & Hc & Hr & Ht & Href).
    destruct (set_readyState_frame ws OPEN h) as (Ht0 & _ & Hr0 & _).
    rewrite Hc, Hr, Ht, Href, Hr0, Ht0. repeat split.
    - destruct (reconnectTimeoutRef h) as [id|] eqn:E; [|done].
      destruct Hf as (_ & _ & Hpos). by rewrite truthy_handle_pos by by apply Hpos.
    - destruct (reconnectTimeoutRef h) as [id|] eqn:E; [|done].
      destruct Hf as (_ & _ & Hpos). by rewrite truthy_handle_pos by by apply Hpos. }
  split; [|split; [exact Hopen|]].
  { intros ws h' Hs. split; [exact Hnew | by eapply Hclose]. }
  intros Hevs.
  pose proof (run_single_flight _ _ _ Hf0 Hsf0 Hevs Hrun) as Hsf.
  split; [by apply single_flight_size|]. split.
  - intros ws h' Hs. destruct (Hclose _ _ Hs) as (Hsz & _).
    assert (Ht : timers h = ∅).
    { simpl in Hs. destruct (sockets h !! ws) as [s|] eqn:Es; [simpl in Hs|done].
      destruct (decide (readyState s = CLOSED)); [done|].
      by destruct (single_flight_live h ws s Hsf Es ltac:(done)) as (? & _). }
    split; [done|]. by rewrite Hsz, Ht, map_size_empty.
  - intros ws h' Hs.
    pose proof (step_single_flight h (SocketOpened ws) h' Hf Hsf eq_refl Hs) as Hsf'.
    destruct (Hopen _ _ Hs) as (_ & _ & Href & _).
    destruct Hsf' as [[Ht _]|(id & t & _ & Hr & _)]; [done|congruence].
Qed.

End Reconnect.

Section ReconnectRuns.
Import Ws.

Lemma reconnect_policy_witness :
  ∃ h h', run sample_parse (mount "ws://localhost:8080") [SocketOpened 0; Elapsed 700] = Some h ∧
          step sample_parse h (SocketClosed 0) = Some h' ∧
          map_to_list (timers h') =
            [(1%nat, {| fires_at := 2700; reconnect_url := "ws://localhost:8080" |})] ∧
          size (timers h') = 1%nat.
Proof.
  eexists. eexists. split; [vm_compute; reflexivity|]. split; [vm_compute; reflexivity|].
  split; [vm_compute; reflexivity|].
  pose proof (reconnect_policy sample_parse "ws://localhost:8080"
                [SocketOpened 0; Elapsed 700] _ ltac:(vm_compute; reflexivity))
    as (_ & _ & Hsingle).
  destruct (Hsingle eq_refl) as (_ & Hclose & _).
  exact (proj2 (Hclose 0%nat _ ltac:(vm_compute; reflexivity))).
Defined.

(** The single-timer property fails once the effect has been re-run (the [url]
    argument changed) while a socket was still alive: the cleanup starts
    closing the old socket and the effect opens a new one; both close,
    the second close finds the timeout of the first pending and
    registers another, and two are pending. *)
Lemma second_close_schedules_second_timer :
  ¬ (∀ evs h ws h',
       run sample_parse (mount "ws://localhost:8080") evs = Some h →
       step sample_parse h (SocketClosed ws) = Some h' →
       timers h ≠ ∅ → timers h' = timers h) ∧
  ¬ (∀ evs h,
       run sample_parse (mount "ws://localhost:8080") evs = Some h →
       (size (timers h) ≤ 1)%nat).
Proof.
  split.
  - intros Hclaim.
    specialize (Hclaim [EffectRerun "ws://game.example:8080"; SocketClosed 0; Elapsed 500]
                  _ 1%nat _ ltac:(vm_compute; reflexivity) ltac:(vm_compute; reflexivity)).
    assert (Hsize : ∀ m1 m2 : gmap nat Timeout, m1 = m2 → size m1 = size m2)
      by (by intros ?? ->).
    apply Hsize in Hclaim; [vm_compute in Hclaim; discriminate|].
    intros Hempty. apply Hsize in Hempty. vm_compute in Hempty. discriminate.
  - intros Hclaim.
    specialize (Hclaim [EffectRerun "ws://game.example:8080"; SocketClosed 0; Elapsed 500;
                        SocketClosed 1]
                  _ ltac:(vm_compute; reflexivity)).
    vm_compute in Hclaim. lia.
Qed.

(** C1: the code at the input where it breaks the claim.  The [url]
    argument changes while socket 0 is alive: the cleanup starts closing
    it but leaves its handlers attached, and the effect opens socket 1.
    Socket 0 closes and registers a retry; 500 ms later socket 1 closes
    while that retry is pending and registers a second one.  Two
    timeouts are pending, due at 2000 and 2500; the ref holds only the
    second, the first is for the old url.  Both fire, each opens a
    socket, and both sockets can open: the one of the orphaned timeout
    is connected to the old url.  (Without a re-run of the effect the
    claim holds: [reconnect_policy].) *)
Theorem duplicate_reconnect_run :
  ∃ h0 h h',
    run sample_parse (mount "ws://localhost:8080")
      [EffectRerun "ws://game.example:8080"; SocketClosed 0; Elapsed 500] = Some h0 ∧
    size (timers h0) = 1%nat ∧
    step sample_parse h0 (SocketClosed 1) = Some h ∧
    map_to_list (timers h) =
      [(2%nat, {| fires_at := 2500; reconnect_url := "ws://game.example:8080" |});
       (1%nat, {| fires_at := 2000; reconnect_url := "ws://localhost:8080" |})] ∧
    reconnectTimeoutRef h = Some 2%nat ∧
    run sample_parse h
      [Elapsed 1500; TimeoutFired 1; Elapsed 500; TimeoutFired 2;
       SocketOpened 2; SocketOpened 3] = Some h' ∧
    sockets h' !! 2%nat =
      Some {| ws_url := "ws://localhost:8080"; readyState := OPEN; outbox := [] |} ∧
    sockets h' !! 3%nat =
      Some {| ws_url := "ws://game.example:8080"; readyState := OPEN; outbox := [] |}.
Proof.
  eexists. eexists. eexists. split; [vm_compute; reflexivity|].
  split; [vm_compute; reflexivity|]. split; [vm_compute; reflexivity|].
  split; [vm_compute; reflexivity|]. split; [vm_compute; reflexivity|].
  split; [vm_compute; reflexivity|]. split; vm_compute; reflexivity.
Qed.

End ReconnectRuns.

(** * Further properties *)

(** ** Hand value: the best total *)

Section BestTotal.
Import Cards.

Lemma downgrade_maximal aces : ∀ sum,
  ((downgrade aces sum).2 < aces)%nat → 21 < (downgrade aces sum).1 + 10.
Proof.
  induction aces as [|a IH]; intros sum; simpl; [lia|].
  destruct (21 <? sum) eqn:E; simpl; [|lia].
  apply Z.ltb_lt in E. intros Hlt.
  destruct (downgrade_arith a (sum - 10)) as [Hle Heq].
  destruct (decide ((downgrade a (sum - 10)).2 = a)) as [Hsame|Hless].
  - rewrite Heq, Hsame. lia.
  - apply IH. lia.
Qed.

Lemma total_with_app f h1 h2 :
  total_with f (h1 ++ h2) = total_with f h1 + total_with f h2.
Proof. induction h1 as [|c h1 IH]; simpl; [done|]. rewrite IH. lia. Qed.

Lemma total_hard_nonneg h : Z.of_nat (length h) ≤ total_with spec_hard_points h.
Proof.
  induction h as [|c h IH]; simpl; [done|].
  assert (1 ≤ spec_hard_points (rank c)) by (destruct (rank c); simpl; lia). lia.
Qed.

(** The facts about the returned total that the properties below share. *)
Lemma value_shape cards :
  let hard := total_with spec_hard_points cards in
  let k := Z.of_nat (soft_aces cards) in
  calculateValue cards = hard + 10 * k ∧
  (soft_aces cards ≤ count_aces cards)%nat ∧
  (calculateValue cards ≤ 21 ∨ soft_aces cards = O) ∧
  ((soft_aces cards < count_aces cards)%nat → 21 < calculateValue cards + 10).
Proof.
  unfold calculateValue, soft_aces. rewrite final_vars_unfold.
  destruct (downgrade_arith (count_aces cards) (total_with spec_soft_points cards))
    as [Hle Heq].
  repeat split.
  - rewrite Heq, total_soft_hard. lia.
  - done.
  - apply downgrade_stops.
  - apply downgrade_maximal.
Qed.

(** [calculateValue] is the best blackjack total: it counts some of
    the aces as 11 and the rest as 1, no total that does so and stays
    within 21 is higher, and it is within 21 whenever such a total
    exists; when even the hard total is above 21 it is the hard total. *)
Theorem calculateValue_best (cards : list Card) :
  let hard := total_with spec_hard_points cards in
  (∃ k, (k ≤ count_aces cards)%nat ∧ calculateValue cards = hard + 10 * Z.of_nat k) ∧
  (∀ j, (j ≤ count_aces cards)%nat → hard + 10 * Z.of_nat j ≤ 21 →
     hard + 10 * Z.of_nat j ≤ calculateValue cards ≤ 21) ∧
  (21 < hard → calculateValue cards = hard).
Proof.
  intros hard. destruct (value_shape cards) as (Hval & Hle & Hstop & Hmax).
  fold hard in Hval. split; [by exists (soft_aces cards)|]. split.
  - intros j Hj Hfit.
    destruct (decide (soft_aces cards < count_aces cards)%nat) as [Hlt|Hge].
    + specialize (Hmax Hlt). destruct Hstop as [?|H0]; [lia|]. rewrite H0 in *. lia.
    + destruct Hstop as [?|H0]; [lia|]. rewrite H0 in *. lia.
  - intros Hbust. destruct Hstop as [?|H0]; [lia|]. rewrite H0 in Hval. lia.
Qed.

Lemma calculateValue_best_witness :
  3 + 10 * Z.of_nat 1 ≤ calculateValue [card RA; card RA; card RA] ≤ 21.
Proof.
  destruct (calculateValue_best [card RA; card RA; card RA]) as (_ & Hbest & _).
  apply (Hbest 1%nat); [vm_compute; lia | vm_compute; congruence].
Defined.

(** A hand is bust (the test of [PlayerSpot]: [handValue > 21]) exactly
    when it is above 21 with every ace counted as 1; the value always
    lies between the hard total and the total with every ace as 11, and
    is at least the number of cards. *)
Theorem bust_iff_hard_total_over_21 (cards : list Card) :
  (21 < calculateValue cards ↔ 21 < total_with spec_hard_points cards) ∧
  total_with spec_hard_points cards ≤ calculateValue cards
    ≤ total_with spec_soft_points cards ∧
  Z.of_nat (length cards) ≤ calculateValue cards.
Proof.
  destruct (value_shape cards) as (Hval & Hle & Hstop & _).
  pose proof (total_soft_hard cards) as Hsoft.
  pose proof (total_hard_nonneg cards) as Hlen.
  split; [|lia]. split; [|lia].
  intros Hbust. destruct Hstop as [?|H0]; [lia|]. rewrite H0 in Hval. lia.
Qed.

(** A bust hand stays bust whatever cards are added to it. *)
Theorem bust_is_permanent (cards more : list Card) :
  21 < calculateValue cards → 21 < calculateValue (cards ++ more).
Proof.
  intros Hbust.
  destruct (value_shape cards) as (Hval & _ & Hstop & _).
  destruct (value_shape (cards ++ more)) as (Hval' & _ & _ & _).
  rewrite total_with_app in Hval'.
  pose proof (total_hard_nonneg more).
  destruct Hstop as [?|H0]; [lia|]. rewrite H0 in Hval. lia.
Qed.

Lemma bust_is_permanent_witness :
  21 < calculateValue ([card RK; card RQ; card R2] ++ [card RA]).
Proof. apply bust_is_permanent. vm_compute. reflexivity. Defined.

(** No two-card hand is bust, and a two-card hand is worth 21 exactly
    when it is an ace with a ten-valued card (10, J, Q or K). *)
Theorem two_cards_natural (c1 c2 : Card) :
  calculateValue [c1; c2] ≤ 21 ∧
  (calculateValue [c1; c2] = 21 ↔
     (rank c1 = RA ∧ spec_soft_points (rank c2) = 10) ∨
     (spec_soft_points (rank c1) = 10 ∧ rank c2 = RA)).
Proof.
  destruct c1 as [i1 s1 r1], c2 as [i2 s2 r2].
  destruct r1, r2; (split; [by vm_compute|]); split;
    try (intros H; vm_compute in H; discriminate H);
    try (intros [[H1 H2]|[H1 H2]]; simpl in H1, H2; discriminate);
    try (intros _; reflexivity);
    try (intros _; left; split; reflexivity);
    try (intros _; right; split; reflexivity).
Qed.

End BestTotal.

(** ** Audio cues: deferral and failure *)

Section AudioDeferral.
Import Sounds.

Lemma playBeep_unmuted freq duration delay b :
  playBeep false freq duration delay b =
    {| available := available b; calls := calls b;
       timeouts := timeouts b ++ [(delay, BeepBody freq duration)];
       console := console b |}.
Proof. reflexivity. Qed.

Lemma melody_fold (notes : list Q) : ∀ (f : nat → nat) b,
  foldl (λ b' '(i, note), playBeep false note 0.15%Q (Z.of_nat i * 120) b')
    b (imap (λ i note, (f i, note)) notes) =
  {| available := available b; calls := calls b;
     timeouts := timeouts b ++
                 imap (λ i note, (Z.of_nat (f i) * 120, BeepBody note 0.15%Q)) notes;
     console := console b |}.
Proof.
  induction notes as [|n notes IH]; intros f b.
  - simpl. rewrite app_nil_r. by destruct b.
  - rewrite !imap_cons. cbn [foldl].
    etrans; [exact (IH (λ i, f (S i)) _)|].
    rewrite playBeep_unmuted. cbn [available calls timeouts console].
    by rewrite <- app_assoc.
Qed.

(** An unmuted melody touches the backend later, never at the call:
    it makes no backend call and hands one beep per note to
    [setTimeout], in the order of the notes, note [i] after [120 * i]
    ms and 0.15 s long. *)
Theorem melody_is_deferred (notes : list Q) (b : Backend) :
  calls (playMelody false notes b) = calls b ∧
  console (playMelody false notes b) = console b ∧
  available (playMelody false notes b) = available b ∧
  timeouts (playMelody false notes b) =
    timeouts b ++ imap (λ i note, (Z.of_nat i * 120, BeepBody note 0.15%Q)) notes.
Proof.
  assert (Hm : playMelody false notes b =
    {| available := available b; calls := calls b;
       timeouts := timeouts b ++
                   imap (λ i note, (Z.of_nat i * 120, BeepBody note 0.15%Q)) notes;
       console := console b |})
    by exact (melody_fold notes (λ x, x) b).
  by rewrite Hm.
Qed.

(** When the audio backend is missing ([new AudioContext()] throws)
    the unmuted cues fail silently: the card, chip and shuffle cues
    leave no trace at all (in particular the shuffle schedules none of
    its passes), and a beep that comes due only logs a line. *)
Theorem audio_failure_is_swallowed (b : Backend) (freq duration : Q) :
  available b = false →
  playCardSlide false b = b ∧
  playChipStack false b = b ∧
  playShuffle false b = b ∧
  beep_body freq duration b = console_log "Audio not supported" b.
Proof.
  intros Hna.
  unfold playCardSlide, playChipStack, playShuffle, beep_body, try_, do_all, and_then,
    new_AudioContext.
  cbn [foldr]. unfold and_then, new_AudioContext. rewrite Hna. done.
Qed.

Lemma audio_failure_is_swallowed_witness :
  playShuffle false (silent false) = silent false ∧
  beep_body 900%Q 0.05%Q (silent false) = console_log "Audio not supported" (silent false).
Proof.
  destruct (audio_failure_is_swallowed (silent false) 900%Q 0.05%Q eq_refl)
    as (_ & _ & H3 & H4).
  split; [exact H3 | exact H4].
Defined.

End AudioDeferral.

(** ** Connection manager: outbound frames *)

Section Outbound.
Import Ws.

Variable JSON_stringify : json → string.

(** [joinRoom] is under the same guard as [send]: with no open socket
    it returns normally and changes nothing; with one it writes a
    single frame of type [join] that carries the room code beside the
    payload [{name}], and changes nothing else. *)
Theorem joinRoom_contract (h : Hook) (roomId playerName : string) :
  (ws_open h = false → joinRoom JSON_stringify roomId playerName h = Ok h) ∧
  (∀ ws s, wsRef h = Some ws → sockets h !! ws = Some s → readyState s = OPEN →
     joinRoom JSON_stringify roomId playerName h =
       Ok (set_sockets
             (<[ws := {| ws_url := ws_url s; readyState := OPEN;
                         outbox := outbox s ++
                                   [JSON_stringify (join_envelope roomId playerName)] |}]>
                (sockets h)) h)) ∧
  get_prop (join_envelope roomId playerName) "type" = Ok (Val (JStr "join")) ∧
  get_prop (join_envelope roomId playerName) "roomId" = Ok (Val (JStr roomId)) ∧
  get_prop (join_envelope roomId playerName) "payload" =
    Ok (Val (JObj [("name", JStr playerName)])).
Proof.
  split; [|split; [|done]].
  - intros Hc. unfold joinRoom. by rewrite Hc.
  - intros ws s Hws Hs Hst. unfold joinRoom, ws_open, ws_send.
    rewrite Hws, Hs, Hst. by rewrite bool_decide_eq_true_2.
Qed.

Lemma send_open h ws s type payload :
  wsRef h = Some ws → sockets h !! ws = Some s → readyState s = OPEN →
  send JSON_stringify type payload h =
    Ok (set_sockets
          (<[ws := {| ws_url := ws_url s; readyState := OPEN;
                      outbox := outbox s ++ [JSON_stringify (envelope type payload)] |}]>
             (sockets h)) h).
Proof.
  intros Hws Hs Hst. unfold send, ws_open, ws_send.
  rewrite Hws, Hs, Hst. by rewrite bool_decide_eq_true_2.
Qed.

Lemma send_closed h type payload :
  ws_open h = false → send JSON_stringify type payload h = Ok h.
Proof. intros Hc. unfold send. by rewrite Hc. Qed.

Lemma send_never_throws h type payload :
  ∃ h', send JSON_stringify type payload h = Ok h'.
Proof.
  destruct (ws_open h) eqn:Ho; [|exists h; by apply send_closed].
  unfold ws_open in Ho. destruct (wsRef h) as [ws|] eqn:Hws; [|done].
  destruct (sockets h !! ws) as [s|] eqn:Hs; [|done].
  apply bool_decide_eq_true in Ho. eexists. by eapply send_open.
Qed.

(** Frames sent through an open socket are written in the order of the
    calls, none lost or repeated, and sending changes nothing but the
    outbox; frames sent while no socket is open are all dropped: none is
    kept for later. *)
Theorem send_all_in_order (msgs : list (string * jsval)) : ∀ (h : Hook),
  (ws_open h = false → send_all JSON_stringify msgs h = Ok h) ∧
  (∀ ws s, wsRef h = Some ws → sockets h !! ws = Some s → readyState s = OPEN →
     send_all JSON_stringify msgs h =
       Ok (set_sockets
             (<[ws := {| ws_url := ws_url s; readyState := OPEN;
                         outbox := outbox s ++
                                   ((λ m, JSON_stringify (envelope m.1 m.2)) <$> msgs) |}]>
                (sockets h)) h)).
Proof.
  induction msgs as [|[type payload] msgs IH]; intros h; split.
  - done.
  - intros ws s Hws Hs Hst. simpl. rewrite app_nil_r. f_equal.
    rewrite <- Hst. rewrite insert_id by (by destruct s). by destruct h.
  - intros Hc. simpl. rewrite send_closed by done. simpl. by apply IH.
  - intros ws s Hws Hs Hst. simpl. rewrite (send_open h ws s) by done. simpl.
    match goal with |- send_all _ _ ?h1 = _ => destruct (IH h1) as [_ IH1] end.
    rewrite (IH1 ws _ Hws (lookup_insert_eq _ _ _) eq_refl). simpl.
    rewrite insert_insert_eq, <- app_assoc. done.
Qed.

End Outbound.

Section OutboundRuns.
Import Ws.

Lemma joinRoom_contract_witness :
  ∃ h1 h2, step sample_parse (mount "ws://localhost:8080") (SocketOpened 0) = Some h1 ∧
           joinRoom sample_stringify "ROOM42" "Ann" h1 = Ok h2 ∧
           outbox <$> sockets h2 !! 0%nat =
             Some [sample_stringify (join_envelope "ROOM42" "Ann")] ∧
           joinRoom sample_stringify "ROOM42" "Ann" (mount "ws://localhost:8080") =
             Ok (mount "ws://localhost:8080").
Proof.
  eexists. eexists. split; [vm_compute; reflexivity|]. split; [|split].
  - eapply (joinRoom_contract sample_stringify);
      [reflexivity | vm_compute; reflexivity | reflexivity].
  - vm_compute. reflexivity.
  - by apply (joinRoom_contract sample_stringify).
Defined.

Lemma send_all_in_order_witness :
  ∃ h1 h2, step sample_parse (mount "ws://localhost:8080") (SocketOpened 0) = Some h1 ∧
           send_all sample_stringify [("hit", Undefined); ("stand", Undefined)] h1 = Ok h2 ∧
           outbox <$> sockets h2 !! 0%nat =
             Some [sample_stringify (envelope "hit" Undefined);
                   sample_stringify (envelope "stand" Undefined)].
Proof.
  eexists. eexists. split; [vm_compute; reflexivity|]. split.
  - eapply (send_all_in_order sample_stringify);
      [reflexivity | vm_compute; reflexivity | reflexivity].
  - vm_compute. reflexivity.
Defined.

End OutboundRuns.

(** ** Connection manager: flags, endpoint and teardown *)

Section Lifecycle.
Import Ws.

Variable JSON_parse : string → completion json.

Lemma message_flags raw h :
  let h' := match onmessage JSON_parse raw h with Ok h' => h' | Throw _ => h end in
  connected h' = connected h ∧ reconnecting h' = reconnecting h ∧ clock h' = clock h.
Proof.
  pose proof (onmessage_cases JSON_parse raw h) as Hc.
  destruct (JSON_parse raw) as [data|e]; [|by rewrite Hc].
  destruct (get_prop data "type") as [ty|e]; [|by rewrite Hc].
  destruct (is_string ty "state"); [|by rewrite Hc].
  destruct Hc as (st & _ & ->). done.
Qed.

(** What the cleanup does to the socket in [wsRef] while it is alive. *)
Lemma effect_cleanup_socket h ws s :
  wsRef h = Some ws → sockets h !! ws = Some s → readyState s ≠ CLOSED →
  sockets (effect_cleanup h) !! ws =
    Some {| ws_url := ws_url s; readyState := CLOSING; outbox := outbox s |}.
Proof.
  intros Hws Hs Hne. unfold effect_cleanup, ws_close.
  set (h1 := match truthy_handle _ with Some i => clearTimeout i h | None => h end).
  assert (Hso : sockets h1 = sockets h) by (subst h1; by destruct (truthy_handle _)).
  assert (Hwo : wsRef h1 = wsRef h) by (subst h1; by destruct (truthy_handle _)).
  rewrite Hwo, Hws, Hso, Hs.
  destruct s as [u r o]. simpl in *.
  destruct r; simpl; rewrite ?Hso, ?lookup_insert_eq; done.
Qed.

Lemma effect_cleanup_flags h :
  connected (effect_cleanup h) = connected h ∧
  reconnecting (effect_cleanup h) = reconnecting h ∧
  clock (effect_cleanup h) = clock h.
Proof.
  unfold effect_cleanup, ws_close.
  destruct (truthy_handle (reconnectTimeoutRef h)); cbn [wsRef clearTimeout set_timers sockets];
    (destruct (wsRef h) as [ws|]; [|done]);
    (destruct (sockets h !! ws) as [s|]; [|done]);
    by destruct (readyState s).
Qed.

(** The socket in [wsRef] after the cleanup: as before, or closing. *)
Lemma effect_cleanup_current h ws s' :
  wsRef h = Some ws → sockets (effect_cleanup h) !! ws = Some s' →
  ∃ s, sockets h !! ws = Some s ∧
       (s' = s ∨ (readyState s' = CLOSING ∧ readyState s ≠ CLOSED)).
Proof.
  intros Hws. unfold effect_cleanup, ws_close.
  set (h1 := match truthy_handle _ with Some i => clearTimeout i h | None => h end).
  assert (Hso : sockets h1 = sockets h) by (subst h1; by destruct (truthy_handle _)).
  assert (Hwo : wsRef h1 = wsRef h) by (subst h1; by destruct (truthy_handle _)).
  rewrite Hwo, Hws, Hso.
  destruct (sockets h !! ws) as [s|] eqn:Es; [|rewrite Hso, Es; done].
  destruct (readyState s) eqn:Er; simpl; rewrite ?Hso, ?lookup_insert_eq, ?Es;
    intros [= <-]; exists s; (split; [done|]); try (by left); right; simpl; split;
    congruence.
Qed.

Lemma step_flags h ev h' :
  handles_fresh h → single_flight h → flags_consistent h → is_rerun ev = false →
  step JSON_parse h ev = Some h' → flags_consistent h'.
Proof.
  intros Hf Hsf [Hpend Hcur] Hev Hs.
  destruct ev as [ws|ws|ws|ws raw|id|ms|u|]; simpl in Hs; [..|done|].
  - (* open *)
    destruct (sockets h !! ws) as [s|] eqn:Es; [simpl in Hs|done].
    destruct (decide (readyState s = CONNECTING)) as [Hc|]; [|done].
    inversion Hs; subst h'.
    destruct (single_flight_live h ws s Hsf Es ltac:(congruence)) as (Ht & Hw & _).
    destruct (onopen_frame (set_readyState ws OPEN h))
      as (Hso & Hwo & _ & _ & Hco & Hre & Hto & _).
    destruct (set_readyState_frame ws OPEN h) as (Ht0 & _ & _ & Hw0 & _).
    split.
    + rewrite Hto, Ht0, Ht. intros Hne. exfalso. apply Hne.
      destruct (truthy_handle _); [apply delete_empty|done].
    + rewrite Hso, Hwo, Hw0, Hw, Hco. unfold set_readyState. rewrite Es. simpl.
      intros ws' s' [= <-]. rewrite lookup_insert_eq. by intros [= <-].
  - (* close *)
    destruct (sockets h !! ws) as [s|] eqn:Es; [simpl in Hs|done].
    destruct (decide (readyState s = CLOSED)) as [|Hne]; [done|].
    inversion Hs; subst h'.
    destruct (single_flight_live h ws s Hsf Es Hne) as (Ht & Hw & _).
    destruct (set_readyState_frame ws CLOSED h) as (_ & _ & _ & Hw0 & _).
    unfold flags_consistent, onclose. simpl. split; [done|].
    rewrite Hw0, Hw. unfold set_readyState. rewrite Es. simpl.
    intros ws' s' [= <-]. rewrite lookup_insert_eq. by intros [= <-].
  - (* error *)
    destruct (sockets h !! ws) as [s|]; [simpl in Hs|done].
    destruct (decide (readyState s = CLOSED)); [done|]. inversion Hs; subst h'.
    unfold flags_consistent, onerror. simpl. split.
    + intros Hne. by destruct (Hpend Hne).
    + intros ws' s' Hw' Hs'. specialize (Hcur ws' s' Hw' Hs').
      destruct (readyState s'); try done; by destruct Hcur.
  - (* message *)
    destruct (sockets h !! ws) as [s|]; [simpl in Hs|done].
    destruct (decide (readyState s = OPEN)); [|done]. inversion Hs; subst h'.
    destruct (message_frame JSON_parse raw h) as (Ht & _ & _ & Hso & Hw).
    destruct (message_flags raw h) as (Hc & Hr & _).
    unfold flags_consistent. rewrite Ht, Hso, Hw, Hc, Hr. done.
  - (* timeout *)
    destruct (timers h !! id) as [t|] eqn:Et; [simpl in Hs|done].
    destruct (decide (fires_at t ≤ clock h)); [|done]. inversion Hs; subst h'.
    destruct Hsf as [[Ht _]|(id0 & t0 & Ht & Hr & Hall)].
    { by rewrite Ht, lookup_empty in Et. }
    assert (Hne : timers h ≠ ∅).
    { rewrite Ht. intros Hemp. apply (f_equal (λ m : gmap nat Timeout, m !! id0)) in Hemp.
      by rewrite lookup_singleton_eq, lookup_empty in Hemp. }
    destruct (Hpend Hne) as [Hc _].
    rewrite Ht in Et. apply lookup_singleton_Some in Et as [-> ->].
    unfold reconnect_callback, connect.
    rewrite all_closed_not_open by done.
    unfold flags_consistent. simpl. rewrite Ht, delete_singleton_eq. split; [done|].
    intros ws' s' [= <-]. rewrite lookup_insert_eq. by intros [= <-].
  - (* time passes *)
    destruct (decide (0 ≤ ms)); [|done]. by inversion Hs; subst h'.
  - (* unmount *)
    inversion Hs; subst h'.
    destruct (effect_cleanup_frame h) as (_ & _ & Hw & Ht).
    destruct (effect_cleanup_flags h) as (Hc & Hr & _).
    unfold flags_consistent. rewrite Hc, Hr, Hw, Ht. split.
    + intros Hne. apply Hpend. intros Hemp. apply Hne. rewrite Hemp.
      destruct (truthy_handle _); [apply delete_empty|done].
    + intros ws' s' Hw' Hs'.
      destruct (effect_cleanup_current h ws' s' Hw' Hs') as (s & Hsold & [->|[-> _]]);
        [exact (Hcur ws' s Hw' Hsold)|done].
Qed.

Lemma mount_flags u : flags_consistent (mount u).
Proof.
  unfold flags_consistent, mount, connect. simpl. split; [done|].
  intros ws s [= <-]. rewrite lookup_insert_eq. by intros [= <-].
Qed.

Lemma run_flags evs : ∀ h h',
  handles_fresh h → single_flight h → flags_consistent h →
  forallb (λ ev, negb (is_rerun ev)) evs = true →
  run JSON_parse h evs = Some h' → flags_consistent h'.
Proof.
  induction evs as [|ev evs IH]; intros h h' Hf Hsf Hfl Hevs Hrun; simpl in *.
  - by inversion Hrun; subst.
  - destruct (step JSON_parse h ev) as [h1|] eqn:Hs; [|done]. simpl in Hrun.
    apply andb_true_iff in Hevs as [Hev Hevs]. apply negb_true_iff in Hev.
    eapply (IH h1); [by eapply step_handles_fresh|by eapply step_single_flight| |done|done].
    by eapply step_flags.
Qed.

(** As long as the effect has not been re-run, the two flags follow
    the transport: while a retry is pending or the current socket is
    still connecting the hook reports "not connected, reconnecting" (the
    overlay of [App] is up), and while the current socket is open it
    reports "connected" (the overlay is down). *)
Theorem flags_follow_transport (url : string) (evs : list Event) (h : Hook) :
  forallb (λ ev, negb (is_rerun ev)) evs = true →
  run JSON_parse (mount url) evs = Some h →
  (timers h ≠ ∅ → connected h = false ∧ reconnecting_overlay h = true) ∧
  (∀ ws s, wsRef h = Some ws → sockets h !! ws = Some s →
     (readyState s = CONNECTING → connected h = false ∧ reconnecting_overlay h = true) ∧
     (readyState s = OPEN → connected h = true ∧ reconnecting_overlay h = false)).
Proof.
  intros Hevs Hrun. destruct (mount_fresh url) as [Hf0 Hsf0].
  destruct (run_flags _ _ _ Hf0 Hsf0 (mount_flags url) Hevs Hrun) as [Hpend Hcur].
  unfold reconnecting_overlay. split.
  - intros Hne. by destruct (Hpend Hne) as [-> ->].
  - intros ws s Hw Hs. specialize (Hcur ws s Hw Hs). split; intros Hst; rewrite Hst in Hcur.
    + by destruct Hcur as [-> ->].
    + rewrite Hcur. split; [done | apply andb_false_r].
Qed.

End Lifecycle.

Section Endpoint.
Import Ws.

Variable JSON_parse : string → completion json.

Lemma set_readyState_lookup ws r h ws' s' :
  sockets (set_readyState ws r h) !! ws' = Some s' →
  ∃ s0, sockets h !! ws' = Some s0 ∧ ws_url s' = ws_url s0.
Proof.
  unfold set_readyState. destruct (sockets h !! ws) as [s|] eqn:Es; [|by eauto].
  simpl. intros Hl. apply lookup_insert_Some in Hl as [[<- <-]|[_ Hl]]; eauto.
Qed.

Lemma effect_cleanup_lookup h ws' s' :
  sockets (effect_cleanup h) !! ws' = Some s' →
  ∃ s0, sockets h !! ws' = Some s0 ∧ ws_url s' = ws_url s0.
Proof.
  unfold effect_cleanup, ws_close.
  set (h1 := match truthy_handle _ with Some i => clearTimeout i h | None => h end).
  assert (Hso : sockets h1 = sockets h) by (subst h1; by destruct (truthy_handle _)).
  destruct (wsRef h1) as [w|]; [|rewrite Hso; by eauto].
  rewrite Hso. destruct (sockets h !! w) as [sw|] eqn:Ew; [|rewrite Hso; by eauto].
  destruct (readyState sw); simpl; rewrite ?Hso; eauto.
  all: intros Hl; apply lookup_insert_Some in Hl as [[<- <-]|[_ Hl]]; eauto.
Qed.

Lemma connect_lookup u h ws' s' :
  sockets (connect u h) !! ws' = Some s' →
  ws_url s' = u ∨ sockets h !! ws' = Some s'.
Proof.
  unfold connect. destruct (ws_open h); [by right|]. simpl.
  intros Hl. apply lookup_insert_Some in Hl as [[_ <-]|[_ Hl]]; [by left|by right].
Qed.

Lemma targets_timers_sub u h h' :
  targets u h → sockets h' = sockets h →
  (∀ id t, timers h' !! id = Some t → timers h !! id = Some t) → targets u h'.
Proof. intros [Hs Ht] Hso Hsub. split; [by rewrite Hso | eauto]. Qed.

Lemma step_targets u h ev h' :
  targets u h → is_rerun ev = false → step JSON_parse h ev = Some h' → targets u h'.
Proof.
  intros [Hso Hti] Hev Hs.
  destruct ev as [ws|ws|ws|ws raw|id|ms|u'|]; simpl in Hs; [..|done|].
  - destruct (sockets h !! ws) as [s|] eqn:Es; [simpl in Hs|done].
    destruct (decide (readyState s = CONNECTING)); [|done]. inversion Hs; subst h'.
    destruct (onopen_frame (set_readyState ws OPEN h)) as (Hs1 & _ & _ & _ & _ & _ & Ht1 & _).
    destruct (set_readyState_frame ws OPEN h) as (Ht0 & _).
    split.
    + rewrite Hs1. intros ws' s' Hl.
      apply set_readyState_lookup in Hl as (s0 & Hl & ->). eauto.
    + rewrite Ht1, Ht0. intros id t.
      destruct (truthy_handle _); [|by eauto].
      intros Hl. apply lookup_delete_Some in Hl as [_ Hl]. eauto.
  - destruct (sockets h !! ws) as [s|] eqn:Es; [simpl in Hs|done].
    destruct (decide (readyState s = CLOSED)); [done|]. inversion Hs; subst h'.
    destruct (set_readyState_frame ws CLOSED h) as (Ht0 & _).
    unfold onclose. simpl. split.
    + intros ws' s' Hl. apply set_readyState_lookup in Hl as (s0 & Hl & ->). eauto.
    + intros id t Hl. simpl in Hl. rewrite Ht0 in Hl.
      apply lookup_insert_Some in Hl as [[_ <-]|[_ Hl]]; simpl; eauto.
  - destruct (sockets h !! ws) as [s|]; [simpl in Hs|done].
    destruct (decide (readyState s = CLOSED)); [done|]. by inversion Hs; subst h'.
  - destruct (sockets h !! ws) as [s|]; [simpl in Hs|done].
    destruct (decide (readyState s = OPEN)); [|done]. inversion Hs; subst h'.
    destruct (message_frame JSON_parse raw h) as (Ht & _ & _ & Hs1 & _).
    unfold targets. by rewrite Ht, Hs1.
  - destruct (timers h !! id) as [t|] eqn:Et; [simpl in Hs|done].
    destruct (decide (fires_at t ≤ clock h)); [|done]. inversion Hs; subst h'.
    unfold reconnect_callback.
    destruct (connect_frame (reconnect_url t) (console_log "Reconnecting..." (clearTimeout id h)))
      as (Ht1 & _).
    split.
    + intros ws' s' Hl. apply connect_lookup in Hl as [->|Hl]; [by eapply Hti|].
      simpl in Hl. eauto.
    + rewrite Ht1. simpl. intros id' t' Hl.
      apply lookup_delete_Some in Hl as [_ Hl]. eauto.
  - destruct (decide (0 ≤ ms)); [|done]. by inversion Hs; subst h'.
  - inversion Hs; subst h'.
    destruct (effect_cleanup_frame h) as (_ & _ & _ & Ht1). split.
    + intros ws' s' Hl. apply effect_cleanup_lookup in Hl as (s0 & Hl & ->). eauto.
    + rewrite Ht1. intros id t. destruct (truthy_handle _); [|by eauto].
      intros Hl. apply lookup_delete_Some in Hl as [_ Hl]. eauto.
Qed.

(** As long as the [url] argument has not changed, every socket the
    hook has created and every pending retry is for the url it was
    mounted with. *)
Theorem every_attempt_targets_the_endpoint (url : string) (evs : list Event) (h : Hook) :
  forallb (λ ev, negb (is_rerun ev)) evs = true →
  run JSON_parse (mount url) evs = Some h →
  (∀ ws s, sockets h !! ws = Some s → ws_url s = url) ∧
  (∀ id t, timers h !! id = Some t → reconnect_url t = url).
Proof.
  assert (H0 : targets url (mount url)).
  { unfold targets, mount, connect. simpl. split.
    - intros ws s Hl. apply lookup_insert_Some in Hl as [[_ <-]|[_ Hl]]; [done|].
      by rewrite lookup_empty in Hl.
    - intros id t Hl. by rewrite lookup_empty in Hl. }
  revert H0. generalize (mount url). revert h.
  induction evs as [|ev evs IH]; intros h h0 H0 Hevs Hrun; simpl in *.
  - by inversion Hrun; subst.
  - destruct (step JSON_parse h0 ev) as [h1|] eqn:Hs; [|done]. simpl in Hrun.
    apply andb_true_iff in Hevs as [Hev Hevs]. apply negb_true_iff in Hev.
    eapply (IH h h1); [|done|done]. by eapply step_targets.
Qed.

(** Teardown while waiting to retry is final: when the component is
    unmounted with a retry pending (and the effect never re-run), the
    retry is cancelled, no socket is left alive, and no socket or
    timeout event can reach the hook any more. *)
Theorem unmount_while_waiting_is_final (url : string) (evs : list Event) (h : Hook) :
  forallb (λ ev, negb (is_rerun ev)) evs = true →
  run JSON_parse (mount url) evs = Some h →
  timers h ≠ ∅ →
  ∃ h1, step JSON_parse h Unmounted = Some h1 ∧
        timers h1 = ∅ ∧
        (∀ ws s, sockets h1 !! ws = Some s → readyState s = CLOSED) ∧
        ∀ ev, step JSON_parse h1 ev = None ∨
              (∃ ms, ev = Elapsed ms) ∨ (∃ u, ev = EffectRerun u) ∨ ev = Unmounted.
Proof.
  intros Hevs Hrun Hne. destruct (mount_fresh url) as [Hf0 Hsf0].
  pose proof (run_handles_fresh JSON_parse _ _ _ Hf0 Hrun) as Hf.
  pose proof (run_single_flight JSON_parse _ _ _ Hf0 Hsf0 Hevs Hrun) as Hsf.
  destruct Hsf as [[Ht _]|(id & t & Ht & Hr & Hall)]; [done|].
  exists (effect_cleanup h). split; [done|].
  destruct (effect_cleanup_frame h) as (_ & _ & _ & Ht1).
  assert (Hclosed : ∀ ws s, sockets (effect_cleanup h) !! ws = Some s → readyState s = CLOSED).
  { intros ws s. unfold effect_cleanup, ws_close.
    set (h1 := match truthy_handle _ with Some i => clearTimeout i h | None => h end).
    assert (Hso : sockets h1 = sockets h) by (subst h1; by destruct (truthy_handle _)).
    destruct (wsRef h1) as [w|]; [|rewrite Hso; by eauto].
    rewrite Hso. destruct (sockets h !! w) as [sw|] eqn:Ew; [|rewrite Hso; by eauto].
    rewrite (Hall _ _ Ew). rewrite Hso. eauto. }
  assert (Hempty : timers (effect_cleanup h) = ∅).
  { rewrite Ht1. destruct Hf as (_ & _ & Hpos).
    rewrite Hr, truthy_handle_pos by by apply Hpos.
    rewrite Ht. apply delete_singleton_eq. }
  split; [done|]. split; [done|].
  intros ev. destruct ev as [ws|ws|ws|ws raw|id'|ms|u|]; simpl; eauto.
  - left. destruct (sockets (effect_cleanup h) !! ws) as [s|] eqn:Es; [simpl|done].
    rewrite (Hclosed _ _ Es). by rewrite decide_False.
  - left. destruct (sockets (effect_cleanup h) !! ws) as [s|] eqn:Es; [simpl|done].
    rewrite (Hclosed _ _ Es). by rewrite decide_True.
  - left. destruct (sockets (effect_cleanup h) !! ws) as [s|] eqn:Es; [simpl|done].
    rewrite (Hclosed _ _ Es). by rewrite decide_True.
  - left. destruct (sockets (effect_cleanup h) !! ws) as [s|] eqn:Es; [simpl|done].
    rewrite (Hclosed _ _ Es). by rewrite decide_False.
  - left. by rewrite Hempty, lookup_empty.
Qed.

End Endpoint.

Section Teardown.
Import Ws.

Variable JSON_parse : string → completion json.

(** Teardown while a socket is alive is not final: the cleanup only
    starts closing the socket, its handlers stay attached, so its close
    event registers a retry 2000 ms later, and when that fires a new
    socket is opened to the same url, after the component is gone. *)
Theorem unmount_with_live_socket_reconnects (url : string) (evs : list Event)
    (h : Hook) (ws : nat) (s : WebSocket) :
  forallb (λ ev, negb (is_rerun ev)) evs = true →
  run JSON_parse (mount url) evs = Some h →
  sockets h !! ws = Some s → readyState s ≠ CLOSED →
  ∃ h1 h2 h3,
    step JSON_parse h Unmounted = Some h1 ∧ timers h1 = ∅ ∧
    (readyState <$> sockets h1 !! ws) = Some CLOSING ∧
    step JSON_parse h1 (SocketClosed ws) = Some h2 ∧
    timers h2 = {[next_timer h := {| fires_at := clock h + 2000;
                                     reconnect_url := ws_url s |}]} ∧
    run JSON_parse h2 [Elapsed 2000; TimeoutFired (next_timer h)] = Some h3 ∧
    timers h3 = ∅ ∧
    (sockets h3 !! next_socket h) =
      Some {| ws_url := ws_url s; readyState := CONNECTING; outbox := [] |} ∧
    wsRef h3 = Some (next_socket h).
Proof.
  intros Hevs Hrun Hs Hne. destruct (mount_fresh url) as [Hf0 Hsf0].
  pose proof (run_handles_fresh JSON_parse _ _ _ Hf0 Hrun) as Hf.
  pose proof (run_single_flight JSON_parse _ _ _ Hf0 Hsf0 Hevs Hrun) as Hsf.
  destruct (single_flight_live h ws s Hsf Hs Hne) as (Ht & Hw & Honly).
  set (h1 := effect_cleanup h).
  assert (Hs1 : step JSON_parse h Unmounted = Some h1) by done.
  pose proof (step_handles_fresh JSON_parse _ _ _ Hf Hs1) as Hf1.
  pose proof (step_single_flight JSON_parse h Unmounted h1 Hf Hsf eq_refl Hs1) as Hsf1.
  destruct (effect_cleanup_frame h) as (Hn1 & _ & _ & Ht1). fold h1 in Hn1, Ht1.
  destruct (effect_cleanup_flags h) as (_ & _ & Hc1). fold h1 in Hc1.
  assert (Hempty1 : timers h1 = ∅).
  { rewrite Ht1, Ht. destruct (truthy_handle _); [apply delete_empty|done]. }
  pose proof (effect_cleanup_socket h ws s Hw Hs Hne) as Hsock1. fold h1 in Hsock1.
  set (h2 := onclose (ws_url s) (set_readyState ws CLOSED h1)).
  assert (Hs2 : step JSON_parse h1 (SocketClosed ws) = Some h2).
  { simpl. rewrite Hsock1. reflexivity. }
  pose proof (step_handles_fresh JSON_parse _ _ _ Hf1 Hs2) as Hf2.
  pose proof (step_single_flight JSON_parse h1 (SocketClosed ws) h2 Hf1 Hsf1 eq_refl Hs2) as Hsf2.
  destruct (set_readyState_frame ws CLOSED h1) as (Ht0 & Hn0 & _ & _ & Hc0).
  assert (Ht2 : timers h2 = {[next_timer h := {| fires_at := clock h + 2000;
                                                 reconnect_url := ws_url s |}]}).
  { subst h2. unfold onclose. simpl. by rewrite Ht0, Hn0, Hc0, Hempty1, Hn1, Hc1, insert_empty. }
  assert (Hclock2 : clock h2 = clock h).
  { subst h2. unfold onclose. simpl. by rewrite Hc0, Hc1. }
  assert (Hnext2 : next_socket h2 = next_socket h).
  { subst h2. unfold onclose, set_readyState. simpl. rewrite Hsock1. simpl.
    subst h1. unfold effect_cleanup, ws_close.
    destruct (truthy_handle (reconnectTimeoutRef h));
      cbn [wsRef clearTimeout set_timers sockets]; rewrite Hw, Hs;
      by destruct (readyState s). }
  assert (Hall2 : ∀ ws' s', sockets h2 !! ws' = Some s' → readyState s' = CLOSED).
  { destruct Hsf2 as [[He _]|(_ & _ & _ & _ & Hall)]; [|done].
    rewrite Ht2 in He. apply (f_equal (λ m : gmap nat Timeout, m !! next_timer h)) in He.
    by rewrite lookup_singleton_eq, lookup_empty in He. }
  clearbody h2. clearbody h1.
  exists h1, h2. eexists. split; [done|]. split; [done|].
  split; [by rewrite Hsock1|]. split; [done|]. split; [done|].
  split.
  { cbn [run step]. destruct (decide (0 ≤ 2000)) as [_|?]; [|lia].
    cbn [mbind option_bind timers set_clock clock].
    rewrite Ht2, lookup_singleton_eq. cbn [mbind option_bind fires_at reconnect_url].
    rewrite Hclock2. destruct (decide (clock h + 2000 ≤ clock h + 2000)) as [_|?]; [|lia].
    reflexivity. }
  unfold reconnect_callback, connect.
  rewrite all_closed_not_open by (simpl; exact Hall2).
  simpl. rewrite Ht2, delete_singleton_eq, Hnext2, lookup_insert_eq. done.
Qed.

End Teardown.

Section TeardownRuns.
Import Ws.

Lemma unmount_with_live_socket_reconnects_witness :
  ∃ h h1 h2 h3,
    run sample_parse (mount "ws://localhost:8080") [SocketOpened 0] = Some h ∧
    step sample_parse h Unmounted = Some h1 ∧
    step sample_parse h1 (SocketClosed 0) = Some h2 ∧
    run sample_parse h2 [Elapsed 2000; TimeoutFired 1] = Some h3 ∧
    wsRef h3 = Some 1%nat.
Proof.
  exists (onopen (set_readyState 0 OPEN (mount "ws://localhost:8080"))).
  destruct (unmount_with_live_socket_reconnects sample_parse "ws://localhost:8080"
              [SocketOpened 0]
              (onopen (set_readyState 0 OPEN (mount "ws://localhost:8080"))) 0%nat
              {| ws_url := "ws://localhost:8080"; readyState := OPEN; outbox := [] |}
              eq_refl ltac:(vm_compute; reflexivity)
              ltac:(vm_compute; reflexivity) ltac:(simpl; congruence))
    as (h1 & h2 & h3 & H1 & _ & _ & H2 & _ & H3 & _ & _ & Hw).
  exists h1, h2, h3. split; [vm_compute; reflexivity|].
  split; [exact H1|]. split; [exact H2|]. split; [exact H3 | exact Hw].
Defined.

Lemma unmount_while_waiting_is_final_witness :
  ∃ h h1,
    run sample_parse (mount "ws://localhost:8080") [SocketClosed 0] = Some h ∧
    step sample_parse h Unmounted = Some h1 ∧ timers h1 = ∅ ∧
    step sample_parse h1 (TimeoutFired 1) = None.
Proof.
  exists (onclose "ws://localhost:8080" (set_readyState 0 CLOSED (mount "ws://localhost:8080"))).
  destruct (unmount_while_waiting_is_final sample_parse "ws://localhost:8080"
              [SocketClosed 0]
              (onclose "ws://localhost:8080"
                 (set_readyState 0 CLOSED (mount "ws://localhost:8080")))
              eq_refl ltac:(vm_compute; reflexivity))
    as (h1 & Hs & Ht & _ & Hdead).
  { intros He. apply (f_equal (λ m : gmap nat Timeout, size m)) in He.
    vm_compute in He. discriminate. }
  exists h1. split; [vm_compute; reflexivity|]. split; [exact Hs|]. split; [exact Ht|].
  destruct (Hdead (TimeoutFired 1)) as [Hn|[[ms Hn]|[[u Hn]|Hn]]];
    [exact Hn | discriminate Hn | discriminate Hn | discriminate Hn].
Defined.

Lemma flags_follow_transport_witness :
  ∃ h, run sample_parse (mount "ws://localhost:8080")
         [SocketOpened 0; SocketClosed 0] = Some h ∧
       connected h = false ∧ reconnecting_overlay h = true.
Proof.
  eexists. split; [vm_compute; reflexivity|].
  destruct (flags_follow_transport sample_parse "ws://localhost:8080"
              [SocketOpened 0; SocketClosed 0] _ eq_refl ltac:(vm_compute; reflexivity))
    as [Hpending _].
  apply Hpending.
  intros He. apply (f_equal (λ m : gmap nat Timeout, size m)) in He.
  vm_compute in He. discriminate.
Defined.

Lemma every_attempt_targets_the_endpoint_witness :
  ∃ h, run sample_parse (mount "ws://localhost:8080")
         [SocketClosed 0; Elapsed 2000; TimeoutFired 1] = Some h ∧
       ∀ ws s, sockets h !! ws = Some s → ws_url s = "ws://localhost:8080".
Proof.
  eexists. split; [vm_compute; reflexivity|].
  exact (proj1 (every_attempt_targets_the_endpoint sample_parse "ws://localhost:8080"
                  [SocketClosed 0; Elapsed 2000; TimeoutFired 1] _ eq_refl
                  ltac:(vm_compute; reflexivity))).
Defined.

End TeardownRuns.

(** ** Turn clock: one interval, and the whole countdown *)

Section Countdown.
Import Timer.

(** In every state the component reaches at most one interval is
    registered with the window, it is the one [intervalRef] holds, and
    one is registered only while the active flag is set and a player is
    present: no interval outlives the turn it was started for. *)
Theorem one_interval_at_most (p0 : Props) (evs : list Event) (t : TurnTimer) :
  run (mount p0) evs = Some t →
  (size (intervals t) ≤ 1)%nat ∧
  (∀ id, id ∈ intervals t → intervalRef t = Some id) ∧
  (intervals t ≠ ∅ → active (props t) = true) ∧
  (intervalRef t = None → intervals t = ∅).
Proof.
  intros Hrun. destruct (reachable_inv _ _ _ Hrun) as [[_ Hinv] Hidle].
  unfold idle_unless_active, running in Hidle.
  destruct (intervalRef t) as [id|] eqn:Er.
  - destruct Hinv as [Hset _]. rewrite Hset in *. split; [|split; [|split]].
    + rewrite size_singleton. lia.
    + intros id' Hin. apply elem_of_singleton in Hin. by subst.
    + intros _. apply Hidle. apply bool_decide_eq_true. by apply elem_of_singleton.
    + done.
  - rewrite Hinv. split; [|split; [|split]].
    + rewrite size_empty. lia.
    + intros id Hin. by apply not_elem_of_empty in Hin.
    + done.
    + done.
Qed.

Lemma one_interval_at_most_witness :
  ∃ t, run (mount (make_props true (Some "Ann") None))
         [Rendered (make_props true (Some "Bob") None);
          Rendered (make_props true (Some "Cid") None)] = Some t ∧
       (size (intervals t) ≤ 1)%nat.
Proof.
  eexists. split; [vm_compute; reflexivity|].
  exact (proj1 (one_interval_at_most (make_props true (Some "Ann") None)
                  [Rendered (make_props true (Some "Bob") None);
                   Rendered (make_props true (Some "Cid") None)] _
                  ltac:(vm_compute; reflexivity))).
Defined.

Lemma run_app (l1 l2 : list Event) : ∀ t,
  run t (l1 ++ l2) = run t l1 ≫= λ t', run t' l2.
Proof.
  induction l1 as [|ev l1 IH]; intros t; simpl; [done|].
  destruct (step t ev) as [t1|]; simpl; [apply IH | done].
Qed.

Lemma on_interval_continues t :
  1 < timeLeft t →
  intervalRef (on_interval t) = intervalRef t ∧ intervals (on_interval t) = intervals t.
Proof.
  intros Hgt. unfold on_interval. rewrite (proj2 (Z.leb_gt _ 0)) by lia.
  by destruct (_ && _).
Qed.

(** The first [k] firings of a countdown that is more than [k] from
    zero. *)
Lemma countdown_run (t : TurnTimer) (n : Z) (k : nat) :
  intervalRef t = Some 1%nat → intervals t = {[1%nat]} → timeLeft t = n →
  Z.of_nat k < n →
  ∃ t', run t (replicate k (IntervalFired 1)) = Some t' ∧
        intervalRef t' = Some 1%nat ∧ intervals t' = {[1%nat]} ∧
        timeLeft t' = n - Z.of_nat k ∧ props t' = props t ∧
        ticks t' =
          ticks t ++ filter (λ v, 0 < v ≤ 5) ((λ i, n - 1 - Z.of_nat i) <$> seq 0 k).
Proof.
  intros Href Hset Hleft. induction k as [|k IH]; intros Hk.
  - exists t. simpl. rewrite app_nil_r. repeat split; try done. lia.
  - destruct IH as (t' & Hrun & Href' & Hset' & Hleft' & Hprops' & Hticks'); [lia|].
    exists (on_interval t').
    rewrite seq_S, fmap_app, filter_app, app_assoc.
    rewrite replicate_S_end, run_app, Hrun.
    cbn [mbind option_bind run step].
    rewrite decide_True by (rewrite Hset'; by apply elem_of_singleton).
    destruct (on_interval_continues t') as [Hr Hs]; [lia|].
    destruct (on_interval_spec t') as (Hp & Hl & Ht).
    rewrite Hr, Hs, Hp, Hl, Ht, Hticks', Hleft'.
    split; [done|]. split; [done|]. split; [done|]. split; [lia|]. split; [done|].
    f_equal. cbn [fmap list_fmap]. rewrite filter_cons, filter_nil.
    replace (n - 1 - Z.of_nat (0 + k)) with (n - Z.of_nat k - 1) by lia.
    by destruct (decide (0 < n - Z.of_nat k - 1 ≤ 5)).
Qed.

Lemma mount_active p :
  active p = true →
  intervalRef (mount p) = Some 1%nat ∧ intervals (mount p) = {[1%nat]} ∧
  timeLeft (mount p) = duration p ∧ ticks (mount p) = [] ∧ props (mount p) = p.
Proof.
  unfold active. intros [Ha Hp]%andb_true_iff.
  unfold mount, effect. rewrite Ha, Hp. simpl.
  by rewrite (left_id_L ∅ (∪)).
Qed.

(** A countdown takes exactly [duration] firings: after [k] of them,
    [k] below the duration, the clock shows [duration - k] and is still
    running; the firing number [duration] brings it to 0 and removes the
    interval, so that no further firing is possible; the cue has then
    sounded once for each remaining time from 5 (or from [duration - 1]
    when that is less) down to 1, in that order, and for nothing else. *)
Theorem countdown_takes_duration_firings (p : Props) :
  active p = true → 1 ≤ duration p →
  (∀ k, Z.of_nat k < duration p →
     ∃ t, run (mount p) (replicate k (IntervalFired 1)) = Some t ∧
          timeLeft t = duration p - Z.of_nat k ∧ running t = true) ∧
  ∃ t, run (mount p) (replicate (Z.to_nat (duration p)) (IntervalFired 1)) = Some t ∧
       timeLeft t = 0 ∧ running t = false ∧ intervals t = ∅ ∧
       ticks t =
         filter (λ v, 0 < v ≤ 5)
           ((λ i, duration p - 1 - Z.of_nat i) <$> seq 0 (Z.to_nat (duration p))) ∧
       step t (IntervalFired 1) = None.
Proof.
  intros Hact Hd.
  destruct (mount_active p Hact) as (Href & Hset & Hleft & Hticks & Hprops).
  split.
  - intros k Hk.
    destruct (countdown_run (mount p) (duration p) k Href Hset Hleft Hk)
      as (t & Hrun & Hr & Hs & Hl & _).
    exists t. split; [done|]. split; [done|].
    unfold running. rewrite Hr, Hs. apply bool_decide_eq_true. by apply elem_of_singleton.
  - destruct (Z.to_nat (duration p)) as [|k] eqn:Ek; [lia|].
    destruct (countdown_run (mount p) (duration p) k Href Hset Hleft ltac:(lia))
      as (t & Hrun & Hr & Hs & Hl & Hp & Ht).
    assert (Hinv : timer_inv t).
    { destruct (mount_spec p) as (Hi & Hid & _).
      by destruct (run_inv _ _ _ Hi Hid Hrun). }
    assert (Hone : timeLeft t = 1) by lia.
    destruct (on_interval_expires t Hinv ltac:(lia)) as (H0 & Hnone & Hrun0).
    destruct (on_interval_spec t) as (_ & _ & Hticks').
    exists (on_interval t).
    rewrite seq_S, fmap_app, filter_app.
    rewrite replicate_S_end, run_app, Hrun.
    cbn [mbind option_bind run step].
    rewrite decide_True by (rewrite Hs; by apply elem_of_singleton).
    split; [done|]. split; [done|]. split; [done|]. split; [done|]. split.
    + rewrite Hticks', Ht, Hticks, Hone. cbn [app].
      rewrite decide_False by lia. rewrite app_nil_r.
      cbn [fmap list_fmap]. rewrite filter_cons, filter_nil.
      replace (duration p - 1 - Z.of_nat (0 + k)) with 0 by lia.
      rewrite decide_False by lia. by rewrite app_nil_r.
    + rewrite Hnone. by rewrite decide_False by apply not_elem_of_empty.
Qed.

Lemma countdown_takes_duration_firings_witness :
  ∃ t, run (mount (make_props true (Some "Ann") (Some 7)))
         (replicate 7 (IntervalFired 1)) = Some t ∧
       timeLeft t = 0 ∧ ticks t = [5; 4; 3; 2; 1].
Proof.
  destruct (countdown_takes_duration_firings (make_props true (Some "Ann") (Some 7))
              eq_refl ltac:(simpl; lia))
    as (_ & t & Hrun & Hleft & _ & _ & Hticks & _).
  exists t. split; [exact Hrun|]. split; [exact Hleft | exact Hticks].
Defined.

End Countdown.

(** ** Derivations of [App]: whose turn, what is shown *)

Section Table.
Import App.

Lemma me_Some (s : GameState) (my_name : string) (p : Player) :
  me (Some s) my_name = Some p →
  name p = my_name ∧ ∃ i, players s !! i = Some p.
Proof.
  unfold me. destruct (list_find _ (players s)) as [[i q]|] eqn:Ef; [|done].
  simpl. intros [= <-]. apply list_find_Some in Ef as (Hl & Hn & _). eauto.
Qed.

Lemma me_exists (s : GameState) (my_name : string) (p : Player) (i : nat) :
  players s !! i = Some p → name p = my_name →
  ∃ q, me (Some s) my_name = Some q.
Proof.
  intros Hl Hn. unfold me.
  destruct (list_find (λ p, name p = my_name) (players s)) as [[j q]|] eqn:Ef.
  - by exists q.
  - exfalso. eapply list_find_None in Ef. rewrite Forall_forall in Ef.
    eapply Ef; [|exact Hn]. by eapply list_elem_of_lookup_2.
Qed.

(** With player names that are all different, it is the local
    player's turn exactly when the phase is [PLAYER] and the record
    found under the local name ([me]) is the current player.  Without
    that assumption one direction remains: if [me] is the current player
    in phase [PLAYER], it is the local player's turn. *)
Theorem my_turn_iff_me_is_current (s : GameState) (my_name : string) :
  (phase s = PLAYER ∧
   (∃ p, currentPlayer (Some s) = Some p ∧ me (Some s) my_name = Some p) →
   isMyTurn (Some s) my_name = true) ∧
  (NoDup (name <$> players s) →
   isMyTurn (Some s) my_name = true →
   phase s = PLAYER ∧
   ∃ p, currentPlayer (Some s) = Some p ∧ me (Some s) my_name = Some p).
Proof.
  split.
  - intros (Hph & p & Hcur & Hme). unfold isMyTurn. rewrite Hcur.
    destruct (me_Some _ _ _ Hme) as [Hn _].
    by rewrite !bool_decide_eq_true_2.
  - intros Hnd. unfold isMyTurn. intros [Hph Hcur]%andb_true_iff.
    apply bool_decide_eq_true in Hph. split; [done|].
    destruct (currentPlayer (Some s)) as [p|] eqn:Ec; [|done].
    apply bool_decide_eq_true in Hcur. exists p. split; [done|].
    unfold currentPlayer in Ec. destruct (0 <=? turnIdx s); [|done].
    destruct (me_exists s my_name p _ Ec Hcur) as [q Hq].
    rewrite Hq. f_equal.
    unfold me in Hq. destruct (list_find _ (players s)) as [[j q']|] eqn:Ef; [|done].
    simpl in Hq. injection Hq as ->.
    apply list_find_Some in Ef as (Hl & Hn & _).
    assert (Hij : j = Z.to_nat (turnIdx s)).
    { eapply (NoDup_lookup _ _ _ my_name Hnd); rewrite list_lookup_fmap.
      - by rewrite Hl; simpl; rewrite Hn.
      - by rewrite Ec; simpl; rewrite Hcur. }
    subst j. congruence.
Qed.

Lemma my_turn_iff_me_is_current_witness :
  let s := snapshot [player_named "Ann"; player_named "Bob"] PLAYER 1 in
  isMyTurn (Some s) "Bob" = true ∧
  ∃ p, currentPlayer (Some s) = Some p ∧ me (Some s) "Bob" = Some p.
Proof.
  intros s. split; [reflexivity|].
  destruct (my_turn_iff_me_is_current s "Bob") as [_ H].
  destruct H as [_ H]; [|reflexivity|exact H].
  apply (bool_decide_unpack _). vm_compute. exact I.
Defined.

(** The dealer's hidden card stays hidden: only the card at index 1 is
    ever face down, it is so in every phase but [DEALER] and [RESULT],
    and whenever a card is face down the dealer's total is not shown;
    the total that is shown is the value of all the dealer's cards. *)
Theorem dealer_total_never_shown_with_hidden_card (s : GameState) :
  (∀ idx, dealer_card_hidden (Some s) idx = true →
     idx = 1%nat ∧ dealer_total_shown (Some s) = None) ∧
  (phase s ≠ DEALER → phase s ≠ RESULT → dealer_card_hidden (Some s) 1 = true) ∧
  (∀ v, dealer_total_shown (Some s) = Some v →
     v = Cards.calculateValue (dealer s) ∧ dealer s ≠ [] ∧
     ∀ idx, dealer_card_hidden (Some s) idx = false).
Proof.
  unfold dealer_card_hidden, dealer_total_shown, dealerValue.
  destruct (showDealerSecondCard (Some s)) eqn:Eshow.
  - split; [|split].
    + intros idx H. by rewrite andb_false_r in H.
    + intros Hd Hr. unfold showDealerSecondCard in Eshow.
      by rewrite !bool_decide_eq_false_2 in Eshow.
    + intros v. rewrite andb_true_r.
      destruct (bool_decide (dealer s = [])) eqn:Ed; [done|]. simpl.
      apply bool_decide_eq_false in Ed. intros [= <-].
      split; [done|]. split; [done|]. intros idx. apply andb_false_r.
  - split; [|split].
    + intros idx H. rewrite andb_true_r in H. apply bool_decide_eq_true in H.
      by rewrite andb_false_r.
    + done.
    + intros v. by rewrite andb_false_r.
Qed.

Lemma dealer_total_never_shown_with_hidden_card_witness :
  let s := {| code := "ROOM42"; players := [player_named "Ann"];
              dealer := [Cards.card Cards.RK; Cards.card Cards.RA];
              phase := PLAYER; turnIdx := 0 |} in
  dealer_card_hidden (Some s) 1 = true ∧ dealer_total_shown (Some s) = None.
Proof.
  intros s.
  destruct (dealer_total_never_shown_with_hidden_card s) as (Hhid & Hplay & _).
  pose proof (Hplay ltac:(simpl; congruence) ltac:(simpl; congruence)) as H1.
  split; [exact H1 | exact (proj2 (Hhid 1%nat H1))].
Defined.

(** The highlighted seat is the one the turn clock runs for: a seat is
    highlighted only in phase [PLAYER] at the index [turnIdx], so at
    most one is, its player is the current player, and when that player
    has a name the turn clock gets that name with the active flag set;
    conversely the clock is active only when some seat is highlighted. *)
Theorem highlighted_seat_is_timed (s : GameState) :
  (∀ idx p, players s !! idx = Some p → spot_isActive s idx = true →
     currentPlayer (Some s) = Some p ∧
     (∀ j, spot_isActive s j = true → j = idx) ∧
     (name p ≠ "" →
        timer_props (Some s) = Timer.make_props true (Some (name p)) (Some 20) ∧
        Timer.active (timer_props (Some s)) = true)) ∧
  (Timer.active (timer_props (Some s)) = true →
     ∃ idx p, players s !! idx = Some p ∧ spot_isActive s idx = true).
Proof.
  split.
  - intros idx p Hl [Hph Hidx]%andb_true_iff.
    apply bool_decide_eq_true in Hph. apply bool_decide_eq_true in Hidx.
    assert (Hcur : currentPlayer (Some s) = Some p).
    { unfold currentPlayer. rewrite Hidx, (proj2 (Z.leb_le 0 _)) by lia.
      by rewrite Nat2Z.id. }
    split; [done|]. split.
    + intros j [_ Hj]%andb_true_iff. apply bool_decide_eq_true in Hj. lia.
    + intros Hname. unfold timer_props. rewrite Hcur.
      rewrite (bool_decide_eq_true_2 _ Hph). rewrite (decide_False _ _ Hname).
      split; [done|]. unfold Timer.active, Timer.has_player. simpl.
      by rewrite (bool_decide_eq_false_2 _ Hname).
  - unfold Timer.active, Timer.has_player, timer_props, Timer.make_props.
    cbn [Timer.currentPlayer Timer.isActive].
    intros [Hph Hp]%andb_true_iff.
    destruct (currentPlayer (Some s)) as [p|] eqn:Ec; [|done].
    unfold currentPlayer in Ec. destruct (0 <=? turnIdx s) eqn:E0; [|done].
    apply Z.leb_le in E0.
    exists (Z.to_nat (turnIdx s)), p. split; [done|].
    unfold spot_isActive. rewrite Hph. simpl. apply bool_decide_eq_true. lia.
Qed.

Lemma highlighted_seat_is_timed_witness :
  let s := snapshot [player_named "Ann"; player_named "Bob"] PLAYER 1 in
  currentPlayer (Some s) = Some (player_named "Bob") ∧
  Timer.active (timer_props (Some s)) = true.
Proof.
  intros s.
  destruct (highlighted_seat_is_timed s) as [H _].
  destruct (H 1%nat (player_named "Bob") eq_refl eq_refl) as (Hc & _ & Ht).
  split; [exact Hc|]. apply Ht. simpl. congruence.
Defined.

End Table.

(** ** State and handlers of [App] *)

Section ChatAndStats.
Import Ui.

(** The chat keeps the last 50 messages: a sent message is appended
    as the newest, the result is the tail of the old list with the new
    message, nothing is dropped while there is room, and the list never
    grows past 50. *)
Theorem chat_keeps_last_50 (my_name fresh_id : string) (now : Z) (text : string)
    (chat : list ChatMessage) :
  let newMsg := {| id := fresh_id; player := my_name; message := text;
                   timestamp := now |} in
  let chat' := handleSendChat my_name fresh_id now text chat in
  length chat' = (S (length chat) `min` 50)%nat ∧
  last chat' = Some newMsg ∧
  chat' `suffix_of` chat ++ [newMsg] ∧
  ((length chat < 50)%nat → chat' = chat ++ [newMsg]).
Proof.
  intros newMsg chat'. subst chat'. unfold handleSendChat, slice_last. fold newMsg.
  rewrite length_app. simpl.
  split; [rewrite length_drop, length_app; simpl; lia|].
  split; [|split].
  - rewrite drop_app_le by lia. apply last_snoc.
  - apply suffix_drop.
  - intros Hlt. replace (length chat + 1 - 50)%nat with 0%nat by lia. apply drop_0.
Qed.

Lemma chat_keeps_last_50_witness :
  handleSendChat "Ann" "0.x1" 1700000000000 "hi" [] =
    [{| id := "0.x1"; player := "Ann"; message := "hi"; timestamp := 1700000000000 |}].
Proof.
  destruct (chat_keeps_last_50 "Ann" "0.x1" 1700000000000 "hi" []) as (_ & _ & _ & H).
  apply H. simpl. lia.
Defined.

Lemma incr_safe (x : Z) : 0 ≤ x < 2 ^ 53 → incr x = x + 1.
Proof.
  intros Hx. unfold incr, round_double.
  rewrite Z.abs_eq by lia. by rewrite (proj2 (Z.leb_le _ _)) by lia.
Qed.

Lemma update_stats_ok (r : string) (st : Stats) :
  stats_ok st → gamesPlayed st < 2 ^ 53 →
  stats_ok (update_stats r st) ∧
  gamesPlayed (update_stats r st) = gamesPlayed st + 1.
Proof.
  unfold stats_ok, update_stats. intros (Hg & Hs & Hw & Hb & Hl & Hp) Hsafe.
  rewrite !incr_safe by lia.
  destruct (bool_decide (r = "WIN") || bool_decide (r = "BLACKJACK")); simpl.
  - destruct (bool_decide (r = "BLACKJACK"));
      destruct (bestStreak st <? currentStreak st + 1) eqn:E;
      [apply Z.ltb_lt in E|apply Z.ltb_ge in E|apply Z.ltb_lt in E|apply Z.ltb_ge in E];
      lia.
  - destruct (bool_decide (r = "LOSE") || bool_decide (r = "BUST")); simpl; lia.
Qed.

Lemma phase_effect_stats (my_name : string) state u :
  stats (phase_effect my_name state u) = stats u ∨
  ∃ r, stats (phase_effect my_name state u) = update_stats r (stats u).
Proof.
  unfold phase_effect.
  destruct (_ && _); [|by left].
  destruct (my_result state my_name) as [r|]; [right; by exists r | by left].
Qed.

Lemma on_snapshot_stats (my_name : string) u state :
  stats (on_snapshot my_name u state) = stats u ∨
  ∃ r, stats (on_snapshot my_name u state) = update_stats r (stats u).
Proof.
  unfold on_snapshot. destruct (decide _); [by left|]. simpl.
  apply phase_effect_stats.
Qed.

Lemma run_stats_ok (my_name : string) (states : list (option App.GameState)) : ∀ u,
  stats_ok (stats u) →
  gamesPlayed (stats u) + Z.of_nat (length states) ≤ 2 ^ 53 →
  stats_ok (stats (foldl (on_snapshot my_name) u states)) ∧
  gamesPlayed (stats u) ≤ gamesPlayed (stats (foldl (on_snapshot my_name) u states))
    ≤ gamesPlayed (stats u) + Z.of_nat (length states).
Proof.
  induction states as [|state states IH]; intros u Hu Hsafe.
  - simpl in *. split; [done|lia].
  - cbn [foldl]. simpl length in *.
    destruct (on_snapshot_stats my_name u state) as [Heq|[r Heq]].
    + destruct (IH (on_snapshot my_name u state)) as (Hok & Hlo & Hhi);
        rewrite ?Heq in *; [done|lia|]. split; [done|lia].
    + destruct (update_stats_ok r (stats u) Hu ltac:(lia)) as [Hok1 Hg1].
      destruct (IH (on_snapshot my_name u state)) as (Hok & Hlo & Hhi);
        rewrite ?Heq, ?Hg1 in *; [done|lia|]. split; [done|lia].
Qed.

(** The statistics stay consistent over any sequence of snapshots:
    games played is the sum of wins, losses and pushes, the current
    streak is between 0 and the best streak and at most the wins, the
    blackjacks are at most the wins, and games played has grown by at
    most one per snapshot, provided the statistics the component started
    from are integers for which this held and games played cannot reach
    beyond 2^53 in that many snapshots (up to there every [++] is
    exact). *)
Theorem stats_stay_consistent (my_name : string) (st0 : Stats)
    (states : list (option App.GameState)) :
  stats_ok st0 →
  gamesPlayed st0 + Z.of_nat (length states) ≤ 2 ^ 53 →
  stats_ok (stats (foldl (on_snapshot my_name) (mounted st0) states)) ∧
  gamesPlayed st0 ≤ gamesPlayed (stats (foldl (on_snapshot my_name) (mounted st0) states))
    ≤ gamesPlayed st0 + Z.of_nat (length states).
Proof.
  intros H0 Hsafe. exact (run_stats_ok my_name states (mounted st0) H0 Hsafe).
Qed.

Lemma stats_stay_consistent_witness :
  let won := Some (App.snapshot
                     [{| App.id := "1"; App.name := "Ann"; App.stack := 1020; App.bet := 0;
                         App.insuranceBet := None; App.ready := true; App.cards := [];
                         App.status := ""; App.result := Some "WIN" |}]
                     App.RESULT (-1)) in
  let u := foldl (on_snapshot "Ann") (mounted no_stats) [won] in
  gamesPlayed (stats u) = 1 ∧ stats_ok (stats u).
Proof.
  intros won u. split; [reflexivity|].
  apply (stats_stay_consistent "Ann" no_stats [won]).
  - unfold stats_ok, no_stats. simpl. lia.
  - simpl. lia.
Defined.

(** Beyond 2^53 the counters stop being exact: from consistent
    statistics with 2^53 games, all won, a lost round leaves the games
    played where they are and counts one loss. *)
Example stats_at_2_53 :
  let st := {| gamesPlayed := 2 ^ 53; wins := 2 ^ 53; losses := 0; pushes := 0;
               blackjacks := 0; currentStreak := 0; bestStreak := 0 |} in
  stats_ok st ∧
  gamesPlayed (update_stats "LOSE" st) = 2 ^ 53 ∧
  losses (update_stats "LOSE" st) = 1 ∧
  incr (2 ^ 53 + 2) = 2 ^ 53 + 4.
Proof. unfold stats_ok. simpl. repeat split; try lia; vm_compute; reflexivity. Qed.

Lemma run_prev_phase (my_name : string) (states : list (option App.GameState)) : ∀ u,
  prevPhaseRef u = last_phase u →
  prevPhaseRef (foldl (on_snapshot my_name) u states) =
    last_phase (foldl (on_snapshot my_name) u states).
Proof.
  induction states as [|state states IH]; intros u Hu; simpl; [done|].
  apply IH. unfold on_snapshot. destruct (decide _); [done|]. done.
Qed.

(** A round is counted once: however the component got where it is,
    a snapshot changes the statistics only when its phase is [RESULT],
    the phase before was not, and it carries a result for the local
    player, and then by one update; a further snapshot in [RESULT]
    changes nothing, whatever it carries. *)
Theorem round_is_counted_once (my_name : string) (st0 : Stats)
    (states : list (option App.GameState)) (s1 s2 : App.GameState) :
  let u := foldl (on_snapshot my_name) (mounted st0) states in
  stats (on_snapshot my_name u (Some s1)) =
    (if bool_decide (App.phase s1 = App.RESULT) &&
        negb (bool_decide (last_phase u = Some App.RESULT))
     then match my_result (Some s1) my_name with
          | Some r => update_stats r (stats u)
          | None => stats u
          end
     else stats u) ∧
  (App.phase s1 = App.RESULT → App.phase s2 = App.RESULT →
   stats (on_snapshot my_name (on_snapshot my_name u (Some s1)) (Some s2)) =
     stats (on_snapshot my_name u (Some s1))).
Proof.
  intros u.
  assert (Hprev : prevPhaseRef u = last_phase u).
  { subst u. by apply run_prev_phase. }
  split.
  - unfold on_snapshot, phase_effect, phase_of. simpl. rewrite Hprev.
    destruct (decide (Some (App.phase s1) = last_phase u)) as [Heq|Hne].
    + rewrite <- Heq.
      destruct (bool_decide (App.phase s1 = App.RESULT)) eqn:E; [|done].
      apply bool_decide_eq_true in E. rewrite E.
      by rewrite bool_decide_eq_true_2.
    + simpl.
      destruct (bool_decide (App.phase s1 = App.RESULT)) eqn:E.
      * apply bool_decide_eq_true in E. rewrite E.
        rewrite bool_decide_eq_true_2 by done. simpl.
        destruct (bool_decide (last_phase u = Some App.RESULT)); simpl; [done|].
        by destruct (my_result (Some s1) my_name).
      * apply bool_decide_eq_false in E.
        rewrite bool_decide_eq_false_2 by congruence. done.
  - intros H1 H2.
    assert (Hlast : last_phase (on_snapshot my_name u (Some s1)) = Some App.RESULT).
    { unfold on_snapshot, phase_of. simpl. rewrite H1.
      destruct (decide (Some App.RESULT = last_phase u)) as [<-|]; done. }
    unfold on_snapshot at 1. unfold phase_of. simpl. rewrite H2, Hlast.
    by rewrite decide_True.
Qed.

Lemma round_is_counted_once_witness :
  let ann r := {| App.id := "1"; App.name := "Ann"; App.stack := 1020; App.bet := 0;
                  App.insuranceBet := None; App.ready := true; App.cards := [];
                  App.status := ""; App.result := r |} in
  let s1 := App.snapshot [ann (Some "BLACKJACK")] App.RESULT (-1) in
  let s2 := App.snapshot [ann (Some "BLACKJACK")] App.RESULT (-1) in
  let dealing := Some (App.snapshot [ann None] App.DEALING (-1)) in
  let u := foldl (on_snapshot "Ann") (mounted no_stats) [dealing] in
  gamesPlayed (stats (on_snapshot "Ann" (on_snapshot "Ann" u (Some s1)) (Some s2))) = 1 ∧
  blackjacks (stats (on_snapshot "Ann" (on_snapshot "Ann" u (Some s1)) (Some s2))) = 1.
Proof.
  intros ann s1 s2 dealing u.
  destruct (round_is_counted_once "Ann" no_stats [dealing] s1 s2) as [_ Honce].
  fold u in Honce. rewrite (Honce eq_refl eq_refl). split; reflexivity.
Defined.

End ChatAndStats.

Section Keys.
Import Ui.

Variable JSON_stringify : Ws.json → string.
Variable muted : bool.

Lemma not_in_pair (k a b : string) : k ≠ a → k ≠ b → k ∉ [a; b].
Proof.
  intros Ha Hb. apply not_elem_of_cons. split; [done|].
  apply not_elem_of_cons. split; [done | apply not_elem_of_nil].
Qed.

Lemma send_action_cases (type : string) (w : World) :
  ∃ h, Ws.send JSON_stringify type Ws.Undefined (hook w) = Ok h ∧
       send_action JSON_stringify type w = Ok {| hook := h; audio := audio w |}.
Proof.
  unfold send_action.
  destruct (send_never_throws JSON_stringify (hook w) type Ws.Undefined) as [h Hh].
  exists h. by rewrite Hh.
Qed.

(** The keyboard shortcuts act only on the local player's turn: out of
    turn a key press changes nothing; in turn the handler never throws,
    a key other than h, s, d (in either case) changes nothing, and
    otherwise exactly one frame goes through [send], of type [hit],
    [stand] or [double] for the key, the card cue being played before
    [hit] and [double]. *)
Theorem keys_act_only_on_my_turn (state : option App.GameState) (my_name key : string)
    (w : World) :
  (App.isMyTurn state my_name = false →
   handleKeyPress JSON_stringify muted state my_name key w = Ok w) ∧
  (App.isMyTurn state my_name = true →
   handleKeyPress JSON_stringify muted state my_name key w =
     if bool_decide (key ∈ ["h"; "H"]) then
       send_action JSON_stringify "hit" (play_cardDeal muted w)
     else if bool_decide (key ∈ ["s"; "S"]) then
       send_action JSON_stringify "stand" w
     else if bool_decide (key ∈ ["d"; "D"]) then
       send_action JSON_stringify "double" (play_cardDeal muted w)
     else Ok w) ∧
  ∃ w', handleKeyPress JSON_stringify muted state my_name key w = Ok w'.
Proof.
  assert (Hturn : App.isMyTurn state my_name = true →
   handleKeyPress JSON_stringify muted state my_name key w =
     if bool_decide (key ∈ ["h"; "H"]) then
       send_action JSON_stringify "hit" (play_cardDeal muted w)
     else if bool_decide (key ∈ ["s"; "S"]) then
       send_action JSON_stringify "stand" w
     else if bool_decide (key ∈ ["d"; "D"]) then
       send_action JSON_stringify "double" (play_cardDeal muted w)
     else Ok w).
  { intros Hmy. unfold handleKeyPress, handleHit, handleStand, handleDouble.
    rewrite Hmy. simpl.
    destruct (decide (key = "h")) as [->|Hh].
    { destruct (send_action_cases "hit" (play_cardDeal muted w)) as (h & _ & ->). done. }
    destruct (decide (key = "H")) as [->|HH].
    { destruct (send_action_cases "hit" (play_cardDeal muted w)) as (h & _ & ->). done. }
    rewrite (bool_decide_eq_false_2 (key = "h")), (bool_decide_eq_false_2 (key = "H")) by done.
    rewrite (bool_decide_eq_false_2 (key ∈ ["h"; "H"])) by by apply not_in_pair.
    simpl.
    destruct (decide (key = "s")) as [->|Hs].
    { destruct (send_action_cases "stand" w) as (h & _ & ->). done. }
    destruct (decide (key = "S")) as [->|HS].
    { destruct (send_action_cases "stand" w) as (h & _ & ->). done. }
    rewrite (bool_decide_eq_false_2 (key = "s")), (bool_decide_eq_false_2 (key = "S")) by done.
    rewrite (bool_decide_eq_false_2 (key ∈ ["s"; "S"])) by by apply not_in_pair.
    simpl.
    destruct (decide (key = "d")) as [->|Hd]; [done|].
    destruct (decide (key = "D")) as [->|HD]; [done|].
    rewrite (bool_decide_eq_false_2 (key = "d")), (bool_decide_eq_false_2 (key = "D")) by done.
    by rewrite (bool_decide_eq_false_2 (key ∈ ["d"; "D"])) by by apply not_in_pair. }
  split; [|split; [exact Hturn|]].
  - intros Hnot. unfold handleKeyPress. by rewrite Hnot.
  - destruct (App.isMyTurn state my_name) eqn:Hmy.
    + rewrite (Hturn eq_refl).
      destruct (bool_decide (key ∈ ["h"; "H"])).
      { destruct (send_action_cases "hit" (play_cardDeal muted w)) as (h & _ & ->). eauto. }
      destruct (bool_decide (key ∈ ["s"; "S"])).
      { destruct (send_action_cases "stand" w) as (h & _ & ->). eauto. }
      destruct (bool_decide (key ∈ ["d"; "D"])); [|eauto].
      destruct (send_action_cases "double" (play_cardDeal muted w)) as (h & _ & ->). eauto.
    + exists w. unfold handleKeyPress. by rewrite Hmy.
Qed.

End Keys.

Section KeysRuns.
Import Ui.

Lemma keys_act_only_on_my_turn_witness :
  let s := App.snapshot [App.player_named "Ann"; App.player_named "Bob"] App.PLAYER 1 in
  let w := {| hook := Ws.onopen (Ws.set_readyState 0 Ws.OPEN (Ws.mount "ws://localhost:8080"));
              audio := Sounds.silent true |} in
  handleKeyPress Ws.sample_stringify true (Some s) "Ann" "h" w = Ok w ∧
  ∃ w', handleKeyPress Ws.sample_stringify true (Some s) "Bob" "S" w = Ok w' ∧
        Ws.outbox <$> Ws.sockets (hook w') !! 0%nat =
          Some [Ws.sample_stringify (Ws.envelope "stand" Ws.Undefined)].
Proof.
  intros s w.
  destruct (keys_act_only_on_my_turn Ws.sample_stringify true (Some s) "Ann" "h" w)
    as (Hout & _ & _).
  destruct (keys_act_only_on_my_turn Ws.sample_stringify true (Some s) "Bob" "S" w)
    as (_ & Hin & _).
  split; [exact (Hout eq_refl)|].
  eexists. split; [rewrite (Hin eq_refl); vm_compute; reflexivity|].
  vm_compute. reflexivity.
Defined.

End KeysRuns.
